(** * Verification of the detection decoder and of the motion/WebRTC monitor

    Shallow embedding of [src/utils/parse_detections.py] (the two
    decoders and [nms]), of [src/utils/motion_webrtc_trigger.py] and of
    [src/scripts/motion_webrtc_monitor.py].

    Floating-point numbers are modelled as exact rationals [Q]; the only
    IEEE behaviour kept is the one the code can reach through numpy: a
    division by zero does not raise but yields NaN ([0/0]) or an infinity,
    and every comparison with NaN is false. *)

From Stdlib Require Import QArith Qminmax Lqa ZArith List Bool Lia Permutation.
Import ListNotations.

Open Scope Q_scope.

(* ------------------------------------------------------------------ *)
(** ** numpy float values *)

(** The result of a numpy float division: a finite value, NaN or an
    infinity. *)
Inductive Flt : Type :=
| Fin (q : Q)
| NaN
| PInf
| NInf.

(** [n / d] on numpy float arrays: no exception on a zero divisor
    (only a RuntimeWarning), [0/0] is NaN, [x/0] is an infinity signed
    like [x]. *)
Definition fdiv (n d : Q) : Flt :=
  if Qeq_bool d 0 then
    if Qeq_bool n 0 then NaN
    else if Qle_bool n 0 then NInf else PInf
  else Fin (n / d).

(** numpy [x <= t] for a float [x] and a finite threshold [t]. *)
Definition fle (x : Flt) (t : Q) : bool :=
  match x with
  | Fin q => Qle_bool q t
  | NaN => false
  | PInf => false
  | NInf => true
  end.

(* ------------------------------------------------------------------ *)
(** ** Boxes and IoU, as computed inside [nms] *)

(** One row [x1, y1, x2, y2] of the [boxes] array. *)
Record Box : Type := mkBox { bx1 : Q; by1 : Q; bx2 : Q; by2 : Q }.

Definition box0 : Box := mkBox 0 0 0 0.

(** [areas = (x2 - x1) * (y2 - y1)] *)
Definition area (b : Box) : Q := (bx2 b - bx1 b) * (by2 b - by1 b).

(** [w = np.maximum(0.0, xx2 - xx1)], [h = np.maximum(0.0, yy2 - yy1)],
    [inter = w * h] for the kept box [a] and a remaining box [b]. *)
Definition inter (a b : Box) : Q :=
  let xx1 := Qmax (bx1 a) (bx1 b) in
  let yy1 := Qmax (by1 a) (by1 b) in
  let xx2 := Qmin (bx2 a) (bx2 b) in
  let yy2 := Qmin (by2 a) (by2 b) in
  Qmax 0 (xx2 - xx1) * Qmax 0 (yy2 - yy1).

(** [union = areas[i] + areas[order[1:]] - inter] *)
Definition union (a b : Box) : Q := area a + area b - inter a b.

(** [iou = inter / (areas[i] + areas[order[1:]] - inter)] *)
Definition iou (a b : Box) : Flt := fdiv (inter a b) (union a b).

(* ------------------------------------------------------------------ *)
(** ** [scores.argsort()[::-1]] *)

(** numpy's default [argsort] (kind 'quicksort') only promises an
    ascending order: a permutation of the indices along which the scores
    do not decrease; the relative order of equal scores is unspecified
    and may depend on the whole array. [argsort_admissible] is that
    contract; the decoder is modelled over any sort satisfying it
    ([nms_with], [parse_yolo_output_with]).

    [argsort] is one such sort, the stable one (equal scores in
    increasing index order, as numpy's stable kinds give them); [nms]
    and [parse_yolo_output] are the decoder run with it. *)
Fixpoint insert_idx (sc : list Q) (i : nat) (l : list nat) : list nat :=
  match l with
  | [] => [i]
  | j :: l' =>
      if Qle_bool (nth i sc 0) (nth j sc 0) then i :: l
      else j :: insert_idx sc i l'
  end.

Definition argsort (sc : list Q) : list nat :=
  fold_right (insert_idx sc) [] (seq 0 (length sc)).

Definition argsort_admissible (sort_indices : list Q -> list nat) : Prop :=
  forall sc, Permutation (sort_indices sc) (seq 0 (length sc)) /\
             ForallOrdPairs (fun i j => nth i sc 0 <= nth j sc 0) (sort_indices sc).

(** The same insertion with equal scores placed after each other in
    decreasing index order: another admissible tie order. *)
Fixpoint insert_idx_rev (sc : list Q) (i : nat) (l : list nat) : list nat :=
  match l with
  | [] => [i]
  | j :: l' =>
      if negb (Qle_bool (nth j sc 0) (nth i sc 0)) then i :: l
      else j :: insert_idx_rev sc i l'
  end.

Definition argsort_rev_ties (sc : list Q) : list nat :=
  fold_right (insert_idx_rev sc) [] (seq 0 (length sc)).

(** An admissible sort whose tie order depends on the array length
    (reversed ties on arrays of three scores, increasing index order
    otherwise). The contract of the default kind allows it: its
    implementations switch between sorting strategies with the size of
    the array, and only the stable kinds fix the order of ties. *)
Definition argsort_by_size (sc : list Q) : list nat :=
  if Nat.eqb (length sc) 3 then argsort_rev_ties sc else argsort sc.

(* ------------------------------------------------------------------ *)
(** ** [nms] *)

(** The [while order.size > 0] loop: keep the head [i], then
    [order = order[inds + 1]] with [inds = np.where(iou <= iou_threshold)].
    The loop runs at most [len(order)] times, which bounds [fuel]. *)
Fixpoint nms_loop (boxes : list Box) (thr : Q) (fuel : nat) (order : list nat)
  : list nat :=
  match fuel with
  | O => []
  | S f =>
      match order with
      | [] => []
      | i :: rest =>
          i :: nms_loop boxes thr f
                 (filter (fun j => fle (iou (nth i boxes box0) (nth j boxes box0)) thr)
                    rest)
      end
  end.

(** [nms] with [scores.argsort()] computed by [sort_indices]. *)
Definition nms_with (sort_indices : list Q -> list nat)
    (boxes : list Box) (scores : list Q) (iou_threshold : Q) : list nat :=
  let order := rev (sort_indices scores) in
  nms_loop boxes iou_threshold (length order) order.

Definition nms (boxes : list Box) (scores : list Q) (iou_threshold : Q) : list nat :=
  nms_with argsort boxes scores iou_threshold.

(* ------------------------------------------------------------------ *)
(** ** Python exceptions and results *)

(** The exceptions the modelled code can raise. *)
Inductive PyExc : Type :=
| IndexError
| ValueError
| ZeroDivisionError
| TypeError
| AttributeError
| JSONDecodeError.

(** A Python call either returns a value or raises. *)
Inductive Res (A : Type) : Type :=
| Ok (a : A)
| Err (e : PyExc).
Arguments Ok {A} a.
Arguments Err {A} e.

Definition bind_res {A B} (r : Res A) (k : A -> Res B) : Res B :=
  match r with
  | Ok a => k a
  | Err e => Err e
  end.

Notation "x <- r ;; k" := (bind_res r (fun x => k))
  (at level 61, r at next level, right associativity).

Fixpoint map_res {A B} (f : A -> Res B) (l : list A) : Res (list B) :=
  match l with
  | [] => Ok []
  | x :: l' => y <- f x ;; ys <- map_res f l' ;; Ok (y :: ys)
  end.

(** Python's [a < b] on floats. *)
Definition Qltb (a b : Q) : bool := negb (Qle_bool b a).

(* ------------------------------------------------------------------ *)
(** ** Detections *)

(** The detection dict [{x1, y1, x2, y2, confidence, class_id}]. *)
Record Detection : Type := mkDet {
  x1 : Q; y1 : Q; x2 : Q; y2 : Q;
  confidence : Q;
  class_id : Z
}.

(** [original_shape[1] / input_shape[1]] and
    [original_shape[0] / input_shape[0]]: Python's [/] on ints raises
    [ZeroDivisionError] on a zero divisor. [None] when no
    [original_shape] is given. *)
Definition scale_of (input_shape : Z * Z) (original_shape : option (Z * Z))
  : Res (option (Q * Q)) :=
  match original_shape with
  | None => Ok None
  | Some (oh, ow) =>
      let (ih, iw) := input_shape in
      if (iw =? 0)%Z then Err ZeroDivisionError
      else if (ih =? 0)%Z then Err ZeroDivisionError
      else Ok (Some (inject_Z ow / inject_Z iw, inject_Z oh / inject_Z ih))
  end.

(** [boxes[:, [0, 2]] *= scale_x; boxes[:, [1, 3]] *= scale_y] *)
Definition scale_box (s : option (Q * Q)) (b : Box) : Box :=
  match s with
  | None => b
  | Some (sx, sy) => mkBox (bx1 b * sx) (by1 b * sy) (bx2 b * sx) (by2 b * sy)
  end.

(** Python's [int(x)] on a float: truncation towards zero. *)
Definition py_int (q : Q) : Z := Z.quot (Qnum q) (Zpos (Qden q)).

(* ------------------------------------------------------------------ *)
(** ** [parse_yolo_output] (dense-grid encoding) *)

(** One anchor row after [argmax]/[max] over its class scores. *)
Record Anchor : Type := mkAnchor {
  acx : Q; acy : Q; aw : Q; ah : Q;
  aconf : Q;
  acls : nat
}.

Definition anchor0 : Anchor := mkAnchor 0 0 0 0 0 0.

(** [np.argmax] / [np.max] of a score row, scanning from index [k]:
    the first index holding the maximum. *)
Fixpoint argmax_from (best_i : nat) (best : Q) (k : nat) (l : list Q) : nat * Q :=
  match l with
  | [] => (best_i, best)
  | x :: l' =>
      if Qle_bool x best then argmax_from best_i best (S k) l'
      else argmax_from k x (S k) l'
  end.

(** A row [[cx, cy, w, h, score_0, ...]] of the transposed output
    ([output[0].transpose()]); [np.argmax] over an empty score row raises
    [ValueError]. *)
Definition anchor_of_row (row : list Q) : Res Anchor :=
  match row with
  | cx :: cy :: w :: h :: s :: sc =>
      let (c, m) := argmax_from 0 s 1 sc in
      Ok (mkAnchor cx cy w h m c)
  | _ => Err ValueError
  end.

(** Center format to corner format (lines 40-46). *)
Definition to_corner (a : Anchor) : Box :=
  mkBox (acx a - aw a / 2) (acy a - ah a / 2) (acx a + aw a / 2) (acy a + ah a / 2).

(** [parse_yolo_output], with [scores.argsort()] inside [nms] computed
    by [sort_indices]. [output] is the anchor-major view
    [output[0].transpose()] of the model's [[1, channels, N]] tensor
    ([channels = 4 + C]): its [N] rows of [channels] values. The channel
    count is kept because an empty tensor still has one:
    [np.argmax(scores, axis=1)] over the [(N, channels - 4)] scores
    raises [ValueError] when [channels <= 4], also when [N = 0]. *)
Definition parse_yolo_output_with (sort_indices : list Q -> list nat)
    (output : list (list Q)) (channels : nat) (conf_threshold iou_threshold : Q)
    (input_shape : Z * Z) (original_shape : option (Z * Z)) : Res (list Detection) :=
  if (channels <=? 4)%nat then Err ValueError else
  anchors <- map_res anchor_of_row output ;;
  (* mask = confidences > conf_threshold *)
  let kept := filter (fun a => Qltb conf_threshold (aconf a)) anchors in
  match kept with
  | [] => Ok []
  | _ =>
      let boxes := map to_corner kept in
      let confidences := map aconf kept in
      let indices := nms_with sort_indices boxes confidences iou_threshold in
      s <- scale_of input_shape original_shape ;;
      let boxes' := map (scale_box s) boxes in
      Ok (map (fun idx =>
                 let b := nth idx boxes' box0 in
                 mkDet (bx1 b) (by1 b) (bx2 b) (by2 b)
                   (nth idx confidences 0) (Z.of_nat (acls (nth idx kept anchor0))))
              indices)
  end.

Definition parse_yolo_output (output : list (list Q)) (channels : nat)
    (conf_threshold iou_threshold : Q)
    (input_shape : Z * Z) (original_shape : option (Z * Z)) : Res (list Detection) :=
  parse_yolo_output_with argsort output channels conf_threshold iou_threshold
    input_shape original_shape.

(* ------------------------------------------------------------------ *)
(** ** [parse_detr_output] (query-set encoding) *)

(** The loop over the rows [[x1, y1, x2, y2, confidence, class_id]] of
    [output[0]]. *)
Fixpoint parse_detr_rows (conf_threshold : Q) (input_shape : Z * Z)
    (original_shape : option (Z * Z)) (rows : list (list Q)) : Res (list Detection) :=
  match rows with
  | [] => Ok []
  | det :: rest =>
      match nth_error det 4 with
      | None => Err IndexError
      | Some conf =>
          if Qltb conf conf_threshold then
            parse_detr_rows conf_threshold input_shape original_shape rest
          else
            match det with
            | a :: b :: c :: d :: _ :: cid :: _ =>
                s <- scale_of input_shape original_shape ;;
                let bx := scale_box s (mkBox a b c d) in
                ds <- parse_detr_rows conf_threshold input_shape original_shape rest ;;
                Ok (mkDet (bx1 bx) (by1 bx) (bx2 bx) (by2 bx) conf (py_int cid) :: ds)
            | _ => Err IndexError
            end
      end
  end.

Definition parse_detr_output (output : list (list Q)) (conf_threshold : Q)
    (input_shape : Z * Z) (original_shape : option (Z * Z)) : Res (list Detection) :=
  parse_detr_rows conf_threshold input_shape original_shape output.

(* ------------------------------------------------------------------ *)
(** ** [motion_webrtc_trigger.py] *)

(** [is_motion_detected(detections, threshold)]: [len(detections) >= threshold];
    the detections are seen only through their [len]. *)
Definition is_motion_detected (len_detections threshold : nat) : bool :=
  Nat.leb threshold len_detections.

(** The observable effects of the monitor: the HTTP POST issued by
    [trigger_webrtc_stream(enable)] (its own failures are caught and
    printed inside it, never re-raised), the error print of [on_message],
    and the calls made by [main] on exit. *)
Inductive Action : Type :=
| Toggle (enable : bool)
| LogError
| LogExit
| LoopStop
| Disconnect.

Definition trigger_webrtc_stream (enable : bool) : list Action := [Toggle enable].

(* ------------------------------------------------------------------ *)
(** ** [motion_webrtc_monitor.py] *)

Definition MOTION_THRESHOLD : nat := 1.
Definition MOTION_TIMEOUT : Q := 5.

(** The two module-level globals. *)
Record MonitorState : Type := mkState {
  last_motion_time : Q;
  webrtc_enabled : bool
}.

(** [last_motion_time = 0], [webrtc_enabled = False] *)
Definition init_state : MonitorState := mkState 0 false.

(** The value of the ["detections"] key, seen through Python's [len]:
    [JSized n] for a value [len] accepts (array, object, string) of
    length [n], [JUnsized] for one it rejects (number, bool, null). *)
Inductive JValue : Type :=
| JSized (n : nat)
| JUnsized.

(** An MQTT payload: bytes that do not decode to JSON, a JSON value that
    is not an object (no [.get]), or a JSON object with or without a
    ["detections"] key. *)
Inductive Payload : Type :=
| PUndecodable
| PNonObject
| PObject (detections : option JValue).

(** [on_message] handling a message at wall-clock time [now]
    ([time.time()]); any exception inside the [try] is printed and the
    globals are left as they were. *)
Definition on_message (st : MonitorState) (now : Q) (p : Payload)
  : MonitorState * list Action :=
  match p with
  | PUndecodable => (st, [LogError])      (* json.loads / decode raises *)
  | PNonObject => (st, [LogError])        (* payload.get raises AttributeError *)
  | PObject dets =>
      (* detections = payload.get('detections', []) *)
      let v := match dets with Some v => v | None => JSized 0 end in
      match v with
      | JUnsized => (st, [LogError])      (* len(...) raises TypeError *)
      | JSized n =>
          if is_motion_detected n MOTION_THRESHOLD then
            if negb (webrtc_enabled st) then
              (mkState now true, trigger_webrtc_stream true)
            else (mkState now (webrtc_enabled st), [])
          else if webrtc_enabled st && Qltb MOTION_TIMEOUT (now - last_motion_time st) then
            (mkState (last_motion_time st) false, trigger_webrtc_stream false)
          else (st, [])
      end
  end.

(** What the process sees after [client.loop_start()]: an MQTT message
    delivered to [on_message], a return of [time.sleep(1)] in the main
    loop at time [now], or a [KeyboardInterrupt]. *)
Inductive Event : Type :=
| Message (now : Q) (p : Payload)
| Wake (now : Q)
| Interrupt.

(** The monitor over a sequence of events. The [while True: time.sleep(1)]
    body does nothing; on [KeyboardInterrupt] [main] prints, stops the
    network loop, disconnects and returns. *)
Fixpoint run (st : MonitorState) (evs : list Event) : MonitorState * list Action :=
  match evs with
  | [] => (st, [])
  | Message now p :: rest =>
      let (st1, a1) := on_message st now p in
      let (st2, a2) := run st1 rest in
      (st2, a1 ++ a2)
  | Wake _ :: rest => run st rest
  | Interrupt :: _ => (st, [LogExit; LoopStop; Disconnect])
  end.

(** The [enable] arguments of the toggle calls, in order. *)
Fixpoint toggles (acts : list Action) : list bool :=
  match acts with
  | [] => []
  | Toggle b :: r => b :: toggles r
  | _ :: r => toggles r
  end.

(** [l] alternates, starting with [b]. *)
Fixpoint alternating_from (b : bool) (l : list bool) : Prop :=
  match l with
  | [] => True
  | x :: r => x = b /\ alternating_from (negb b) r
  end.

(* ------------------------------------------------------------------ *)
(** ** Anchor-level views used in the proofs about [parse_yolo_output] *)

(** [argsort] followed by indexing, on the anchors themselves. *)
Fixpoint insert_anchor (a : Anchor) (l : list Anchor) : list Anchor :=
  match l with
  | [] => [a]
  | b :: l' => if Qle_bool (aconf a) (aconf b) then a :: l else b :: insert_anchor a l'
  end.

Definition sort_anchors (l : list Anchor) : list Anchor :=
  fold_right insert_anchor [] l.

(** [nms_loop] followed by indexing, on the anchors themselves. *)
Fixpoint greedy (thr : Q) (fuel : nat) (l : list Anchor) : list Anchor :=
  match fuel with
  | O => []
  | S f =>
      match l with
      | [] => []
      | a :: r =>
          a :: greedy thr f (filter (fun b => fle (iou (to_corner a) (to_corner b)) thr) r)
      end
  end.

(** The detection dict built for a kept anchor (lines 59-68). *)
Definition det_of (s : option (Q * Q)) (a : Anchor) : Detection :=
  let b := scale_box s (to_corner a) in
  mkDet (bx1 b) (by1 b) (bx2 b) (by2 b) (aconf a) (Z.of_nat (acls a)).

(** The detection dict built for a kept query-set row (lines 93-112). *)
Definition query_detection (s : option (Q * Q)) (row : list Q) : Detection :=
  let b := scale_box s (mkBox (nth 0 row 0) (nth 1 row 0) (nth 2 row 0) (nth 3 row 0)) in
  mkDet (bx1 b) (by1 b) (bx2 b) (by2 b) (nth 4 row 0) (py_int (nth 5 row 0)).

(** [nms] keeps [j] after having kept [i]. *)
Definition keeps (boxes : list Box) (thr : Q) (i j : nat) : Prop :=
  fle (iou (nth i boxes box0) (nth j boxes box0)) thr = true.

(** The anchor at index [i] of [kept] ([kept[i]]). *)
Definition anchor_at (kept : list Anchor) (i : nat) : Anchor := nth i kept anchor0.

(** Float-level equality: finite values compared as numbers. *)
Definition flt_eq (x y : Flt) : Prop :=
  match x, y with
  | Fin p, Fin q => p == q
  | _, _ => x = y
  end.

(** The length [on_message] reads from a payload ([len(payload.get('detections', []))]),
    or [None] when reading it raises. *)
Definition payload_len (p : Payload) : option nat :=
  match p with
  | PObject None => Some 0%nat
  | PObject (Some (JSized n)) => Some n
  | _ => None
  end.

(** The message is a motion event for [on_message]. *)
Definition qualifies (p : Payload) : bool :=
  match payload_len p with
  | Some n => is_motion_detected n MOTION_THRESHOLD
  | None => false
  end.

(** The time of the latest qualifying message among the events processed
    by [run], [t0] when there is none. *)
Fixpoint last_qualifying_time (t0 : Q) (evs : list Event) : Q :=
  match evs with
  | [] => t0
  | Message now p :: rest =>
      last_qualifying_time (if qualifies p then now else t0) rest
  | Wake _ :: rest => last_qualifying_time t0 rest
  | Interrupt :: _ => t0
  end.

(** The box [x1, y1, x2, y2] of a detection dict. *)
Definition det_box (d : Detection) : Box := mkBox (x1 d) (y1 d) (x2 d) (y2 d).

(** The dict appended for [idx] in the final loop of
    [parse_yolo_output] (lines 56-66), over the kept anchors [kept] and
    the scale [s]. *)
Definition yolo_detection (kept : list Anchor) (s : option (Q * Q)) (idx : nat) : Detection :=
  let b := nth idx (map (scale_box s) (map to_corner kept)) box0 in
  mkDet (bx1 b) (by1 b) (bx2 b) (by2 b)
    (nth idx (map aconf kept) 0) (Z.of_nat (acls (nth idx kept anchor0))).

(* ================================================================== *)
(** * Proofs *)

(* ------------------------------------------------------------------ *)
(** ** IoU *)

Lemma Qeq_bool_compat_l (a a' b : Q) : a == a' -> Qeq_bool a b = Qeq_bool a' b.
Proof.
  intro H. apply eq_true_iff_eq. rewrite !Qeq_bool_iff. rewrite H. tauto.
Qed.

Lemma Qle_bool_compat (a a' b b' : Q) :
  a == a' -> b == b' -> Qle_bool a b = Qle_bool a' b'.
Proof.
  intros Ha Hb. apply eq_true_iff_eq. rewrite !Qle_bool_iff. rewrite Ha, Hb. tauto.
Qed.

Lemma fdiv_compat (n n' d d' : Q) :
  n == n' -> d == d' -> flt_eq (fdiv n d) (fdiv n' d').
Proof.
  intros Hn Hd. unfold fdiv.
  rewrite (Qeq_bool_compat_l d d' 0 Hd), (Qeq_bool_compat_l n n' 0 Hn),
    (Qle_bool_compat n n' 0 0 Hn (Qeq_refl 0)).
  destruct (Qeq_bool d' 0), (Qeq_bool n' 0), (Qle_bool n' 0); simpl; auto.
  all: rewrite Hn, Hd; reflexivity.
Qed.

Lemma fle_flt_eq (x y : Flt) (t : Q) : flt_eq x y -> fle x t = fle y t.
Proof.
  destruct x, y; simpl; intro H; try discriminate; try reflexivity.
  apply Qle_bool_compat; [exact H | reflexivity].
Qed.

Lemma inter_comm (a b : Box) : inter a b == inter b a.
Proof.
  unfold inter.
  rewrite (Q.max_comm (bx1 a)), (Q.max_comm (by1 a)), (Q.min_comm (bx2 a)),
    (Q.min_comm (by2 a)).
  reflexivity.
Qed.

Lemma union_comm (a b : Box) : union a b == union b a.
Proof.
  unfold union. rewrite inter_comm. ring.
Qed.

Lemma iou_comm (a b : Box) : flt_eq (iou a b) (iou b a).
Proof.
  unfold iou. apply fdiv_compat; [apply inter_comm | apply union_comm].
Qed.

Lemma inter_nonneg (a b : Box) : 0 <= inter a b.
Proof.
  unfold inter. apply Qmult_le_0_compat; apply Q.le_max_l.
Qed.

(** A numpy IoU that passes the [iou <= iou_threshold] test is a finite
    number below the threshold (it is never [-inf]: the intersection is
    non-negative). *)
Lemma fle_iou_finite (a b : Box) (t : Q) :
  fle (iou a b) t = true -> exists q, iou a b = Fin q /\ q <= t.
Proof.
  unfold iou, fdiv. pose proof (inter_nonneg a b) as Hn.
  destruct (Qeq_bool (union a b) 0) eqn:Hd.
  - destruct (Qeq_bool (inter a b) 0) eqn:Hz; [discriminate|].
    destruct (Qle_bool (inter a b) 0) eqn:Hl; [|discriminate].
    apply Qle_bool_iff in Hl. apply Qeq_bool_neq in Hz.
    exfalso. apply Hz. apply Qle_antisym; assumption.
  - simpl. intro H. exists (inter a b / union a b). split; [reflexivity|].
    apply Qle_bool_iff. exact H.
Qed.

(* ------------------------------------------------------------------ *)
(** ** [nms] *)

Section NmsLoop.
Variable boxes : list Box.
Variable thr : Q.

Lemma nms_loop_incl (fuel : nat) (order : list nat) (i : nat) :
  In i (nms_loop boxes thr fuel order) -> In i order.
Proof.
  revert order. induction fuel as [|f IH]; intros order H; [destruct H|].
  destruct order as [|k rest]; [destruct H|].
  destruct H as [<-|H]; [left; reflexivity|].
  right. apply IH in H. apply filter_In in H. tauto.
Qed.

Lemma nms_loop_pairs (fuel : nat) (order : list nat) :
  ForallOrdPairs (keeps boxes thr) (nms_loop boxes thr fuel order).
Proof.
  revert order. induction fuel as [|f IH]; intros order; [constructor|].
  destruct order as [|k rest]; simpl; [constructor|].
  constructor; [|apply IH].
  apply Forall_forall. intros j Hj.
  apply nms_loop_incl, filter_In in Hj. exact (proj2 Hj).
Qed.
End NmsLoop.

Lemma ForallOrdPairs_two {A} (R : A -> A -> Prop) (l : list A) (x y : A) :
  ForallOrdPairs R l -> In x l -> In y l -> x <> y -> R x y \/ R y x.
Proof.
  induction 1 as [|a l Ha Hl IH]; intros Hx Hy Hxy; [destruct Hx|].
  destruct Hx as [<-|Hx], Hy as [<-|Hy].
  - congruence.
  - left. rewrite Forall_forall in Ha. auto.
  - right. rewrite Forall_forall in Ha. auto.
  - auto.
Qed.

Lemma insert_idx_In (sc : list Q) (i x : nat) (l : list nat) :
  In x (insert_idx sc i l) <-> x = i \/ In x l.
Proof.
  induction l as [|j l IH]; simpl; [intuition congruence|].
  destruct (Qle_bool _ _); simpl; [intuition congruence|]. rewrite IH. intuition congruence.
Qed.

Lemma argsort_In (sc : list Q) (x : nat) : In x (argsort sc) <-> In x (seq 0 (length sc)).
Proof.
  unfold argsort. induction (seq 0 (length sc)) as [|j l IH]; simpl; [tauto|].
  rewrite insert_idx_In, IH. intuition.
Qed.

Lemma argsort_length (sc : list Q) : length (argsort sc) = length sc.
Proof.
  unfold argsort. rewrite <- (length_seq (length sc) 0) at 2.
  induction (seq 0 (length sc)) as [|j l IH]; simpl; [reflexivity|].
  rewrite <- IH. clear IH. generalize (fold_right (insert_idx sc) [] l).
  intro m. induction m as [|k m IHm]; simpl; [reflexivity|].
  destruct (Qle_bool _ _); simpl; [reflexivity|]. rewrite IHm. reflexivity.
Qed.

Lemma nms_In (boxes : list Box) (scores : list Q) (thr : Q) (i : nat) :
  In i (nms boxes scores thr) -> (i < length scores)%nat.
Proof.
  unfold nms, nms_with. intro H. apply nms_loop_incl in H.
  apply in_rev, argsort_In, in_seq in H. lia.
Qed.

(** C1: the indices returned by [nms] are indices of the input, and any
    two distinct kept boxes have an IoU (a finite number) at most
    [iou_threshold]. *)
Theorem nms_subset_and_separated (boxes : list Box) (scores : list Q) (iou_threshold : Q)
    (Hlen : length scores = length boxes) :
  (forall i, In i (nms boxes scores iou_threshold) -> (i < length boxes)%nat) /\
  (forall i j, In i (nms boxes scores iou_threshold) -> In j (nms boxes scores iou_threshold) ->
     i <> j ->
     exists q, iou (nth i boxes box0) (nth j boxes box0) = Fin q /\ q <= iou_threshold).
Proof.
  split.
  - intros i Hi. rewrite <- Hlen. exact (nms_In _ _ _ _ Hi).
  - intros i j Hi Hj Hij. apply fle_iou_finite.
    assert (Hp := nms_loop_pairs boxes iou_threshold
                     (length (rev (argsort scores))) (rev (argsort scores))).
    destruct (ForallOrdPairs_two _ _ i j Hp Hi Hj Hij) as [H|H]; unfold keeps in H.
    + exact H.
    + rewrite (fle_flt_eq _ _ _ (iou_comm _ _)). exact H.
Qed.

Lemma nms_subset_and_separated_witness :
  length [0.5; 0.9] = length [mkBox 0 0 10 10; mkBox 1 1 10 10] /\
  nms [mkBox 0 0 10 10; mkBox 1 1 10 10] [0.5; 0.9] (45#100) = [1%nat] /\
  (forall i j, In i (nms [mkBox 0 0 10 10; mkBox 1 1 10 10] [0.5; 0.9] (45#100)) ->
     In j (nms [mkBox 0 0 10 10; mkBox 1 1 10 10] [0.5; 0.9] (45#100)) -> i <> j ->
     exists q, iou (nth i [mkBox 0 0 10 10; mkBox 1 1 10 10] box0)
                   (nth j [mkBox 0 0 10 10; mkBox 1 1 10 10] box0) = Fin q /\ q <= 45#100).
Proof.
  split; [reflexivity|]. split; [vm_compute; reflexivity|].
  apply (proj2 (nms_subset_and_separated [mkBox 0 0 10 10; mkBox 1 1 10 10] [0.5; 0.9]
                  (45#100) eq_refl)).
Defined.

(* ------------------------------------------------------------------ *)
(** ** Zero union area *)

(** C6 (amended): [nms] has no guard on the union: when it is zero the
    numpy quotient is NaN or [+inf], the test [iou <= iou_threshold]
    fails, and the remaining box is suppressed by the box just kept. *)
Theorem zero_union_suppressed (boxes : list Box) (thr : Q) (fuel : nat)
    (i j : nat) (rest : list nat)
    (Hij : j <> i) (Hu : union (nth i boxes box0) (nth j boxes box0) == 0) :
  (iou (nth i boxes box0) (nth j boxes box0) = NaN \/
   iou (nth i boxes box0) (nth j boxes box0) = PInf) /\
  fle (iou (nth i boxes box0) (nth j boxes box0)) thr = false /\
  ~ In j (nms_loop boxes thr (S fuel) (i :: rest)).
Proof.
  assert (Hd : iou (nth i boxes box0) (nth j boxes box0) = NaN \/
               iou (nth i boxes box0) (nth j boxes box0) = PInf).
  { unfold iou, fdiv. apply Qeq_eq_bool in Hu. rewrite Hu.
    destruct (Qeq_bool (inter _ _) 0) eqn:Hz; [left; reflexivity|].
    destruct (Qle_bool (inter _ _) 0) eqn:Hl; [|right; reflexivity].
    apply Qle_bool_iff in Hl. apply Qeq_bool_neq in Hz. exfalso. apply Hz.
    apply Qle_antisym; [exact Hl | apply inter_nonneg]. }
  assert (Hf : fle (iou (nth i boxes box0) (nth j boxes box0)) thr = false)
    by (destruct Hd as [-> | ->]; reflexivity).
  split; [exact Hd|]. split; [exact Hf|].
  intro H. destruct H as [H|H]; [exact (Hij (eq_sym H))|].
  apply nms_loop_incl, filter_In in H. rewrite Hf in H. destruct H as [_ H]. discriminate H.
Qed.

Lemma zero_union_suppressed_witness :
  (0%nat <> 1%nat /\ union (mkBox 0 0 0 0) (mkBox 0 0 0 0) == 0) /\
  ~ In 1%nat (nms_loop [mkBox 0 0 0 0; mkBox 0 0 0 0] (45#100) 2 [0%nat; 1%nat]).
Proof.
  split; [split; [discriminate | reflexivity]|].
  apply (zero_union_suppressed [mkBox 0 0 0 0; mkBox 0 0 0 0] (45#100) 1 0 1 [1%nat]);
    [discriminate | reflexivity].
Defined.

(** C6, as stated, fails: two identical zero-area boxes have union area
    0, their numpy IoU is NaN (not 0), and [nms] keeps only one of them,
    whereas an IoU of 0 would keep both. *)
Lemma zero_union_counterexample :
  union (mkBox 0 0 0 0) (mkBox 0 0 0 0) == 0 /\
  iou (mkBox 0 0 0 0) (mkBox 0 0 0 0) = NaN /\
  nms [mkBox 0 0 0 0; mkBox 0 0 0 0] [0.9; 0.8] (45#100) = [0%nat].
Proof.
  split; [reflexivity|]. split; vm_compute; reflexivity.
Qed.

(* ------------------------------------------------------------------ *)
(** ** The two decoders: thresholds and shapes *)

Lemma Qltb_lt (a b : Q) : Qltb a b = true <-> a < b.
Proof.
  unfold Qltb. rewrite negb_true_iff. split; intro H.
  - apply Qnot_le_lt. intro H'. apply Qle_bool_iff in H'. congruence.
  - destruct (Qle_bool b a) eqn:E; [|reflexivity].
    apply Qle_bool_iff in E. exfalso. exact (Qlt_not_le _ _ H E).
Qed.

Lemma Qltb_false (a b : Q) : Qltb a b = false <-> b <= a.
Proof.
  unfold Qltb. rewrite negb_false_iff. apply Qle_bool_iff.
Qed.

(** Every detection of [parse_yolo_output] comes from a row whose
    confidence is strictly above [conf_threshold]. *)
Lemma yolo_confidence_above (output : list (list Q)) (channels : nat)
    (conf_threshold iou_threshold : Q)
    (input_shape : Z * Z) (original_shape : option (Z * Z)) (ds : list Detection) :
  parse_yolo_output output channels conf_threshold iou_threshold input_shape original_shape
    = Ok ds ->
  Forall (fun d => conf_threshold < confidence d) ds.
Proof.
  unfold parse_yolo_output, parse_yolo_output_with.
  destruct (channels <=? 4)%nat; [discriminate|].
  destruct (map_res anchor_of_row output) as [anchors|e]; simpl; [|discriminate].
  set (kept := filter (fun a => Qltb conf_threshold (aconf a)) anchors).
  assert (Hk : forall a, In a kept -> conf_threshold < aconf a).
  { intros a Ha. apply filter_In in Ha. apply Qltb_lt. tauto. }
  clearbody kept. destruct kept as [|k0 ks].
  - intro H. injection H as <-. constructor.
  - destruct (scale_of input_shape original_shape) as [s|e]; simpl; [|discriminate].
    intro H. injection H as <-. apply Forall_forall. intros d Hd.
    apply in_map_iff in Hd. destruct Hd as [idx [<- Hidx]].
    apply nms_In in Hidx.
    assert (Hn := nth_In (map aconf (k0 :: ks)) 0 Hidx).
    match goal with
    | |- _ < confidence ?d => change (confidence d) with (nth idx (map aconf (k0 :: ks)) 0)
    end.
    apply in_map_iff in Hn. destruct Hn as [a [Ha Hin]]. rewrite <- Ha. apply Hk. exact Hin.
Qed.

Lemma parse_detr_rows_query_set (conf_threshold : Q) (input_shape : Z * Z)
    (original_shape : option (Z * Z)) (s : option (Q * Q)) (rows : list (list Q)) :
  Forall (fun r => length r = 6%nat) rows ->
  scale_of input_shape original_shape = Ok s ->
  parse_detr_rows conf_threshold input_shape original_shape rows =
    Ok (map (query_detection s)
          (filter (fun r => negb (Qltb (nth 4 r 0) conf_threshold)) rows)).
Proof.
  intros Hrows Hs. induction Hrows as [|r rows Hr _ IH]; [reflexivity|].
  destruct r as [|a [|b [|c [|d [|e [|f [|g r]]]]]]]; simpl in Hr; try discriminate.
  simpl. destruct (Qltb e conf_threshold); simpl; [exact IH|].
  rewrite Hs. simpl. rewrite IH. reflexivity.
Qed.

(** C8: on a query-set tensor (rows of six values), [parse_detr_output]
    returns exactly the rows whose confidence is not below
    [conf_threshold], in order, each rescaled, with no suppression step;
    every detection of the dense-grid decoder has a confidence strictly
    above [conf_threshold]. *)
Theorem query_set_inclusive_dense_grid_strict (output dense : list (list Q))
    (conf_threshold iou_threshold : Q) (input_shape : Z * Z)
    (original_shape : option (Z * Z)) (s : option (Q * Q))
    (Hrows : Forall (fun r => length r = 6%nat) output)
    (Hs : scale_of input_shape original_shape = Ok s) :
  parse_detr_output output conf_threshold input_shape original_shape =
    Ok (map (query_detection s)
          (filter (fun r => negb (Qltb (nth 4 r 0) conf_threshold)) output)) /\
  (forall channels ds,
     parse_yolo_output dense channels conf_threshold iou_threshold input_shape original_shape
       = Ok ds ->
              Forall (fun d => conf_threshold < confidence d) ds).
Proof.
  split.
  - apply parse_detr_rows_query_set; assumption.
  - intros channels ds. apply yolo_confidence_above.
Qed.

Lemma query_set_inclusive_dense_grid_strict_witness :
  parse_detr_output [[0; 0; 10; 10; 1#4; 2]; [0; 0; 5; 5; 1#5; 1]; [1; 1; 4; 4; 1#2; 3]]
    (1#4) (640, 640)%Z (Some (1280, 320)%Z)
  = Ok (map (query_detection (Some (320#640, 1280#640)))
          [[0; 0; 10; 10; 1#4; 2]; [1; 1; 4; 4; 1#2; 3]]).
Proof.
  refine (proj1 (query_set_inclusive_dense_grid_strict
                   [[0; 0; 10; 10; 1#4; 2]; [0; 0; 5; 5; 1#5; 1]; [1; 1; 4; 4; 1#2; 3]]
                   [] (1#4) (45#100) (640, 640)%Z (Some (1280, 320)%Z) (Some (320#640, 1280#640))
                   _ _)).
  - repeat constructor.
  - vm_compute. reflexivity.
Defined.

(** C4 (amended): neither decoder checks the shape of its input and there
    is no [ShapeMismatch] result. A dense-grid tensor with at most four
    channels makes [parse_yolo_output] raise [ValueError] ([argmax] over an
    empty score axis), also when it has no anchors; a query-set tensor
    whose first row has at most four values makes [parse_detr_output] raise
    [IndexError] (no confidence column); both exceptions propagate to the
    caller. A tensor with no rows decodes to [[]] in [parse_detr_output],
    and in [parse_yolo_output] when it has at least five channels. *)
Theorem no_shape_check (rows : list (list Q)) (channels : nat)
    (row : list Q) (drows : list (list Q))
    (conf_threshold iou_threshold : Q) (input_shape : Z * Z)
    (original_shape : option (Z * Z))
    (Hch : (channels <= 4)%nat) (Hrow : (length row <= 4)%nat) :
  parse_yolo_output rows channels conf_threshold iou_threshold input_shape original_shape
    = Err ValueError /\
  parse_detr_output (row :: drows) conf_threshold input_shape original_shape
    = Err IndexError /\
  parse_detr_output [] conf_threshold input_shape original_shape = Ok [] /\
  (forall channels', (5 <= channels')%nat ->
     parse_yolo_output [] channels' conf_threshold iou_threshold input_shape original_shape
       = Ok []).
Proof.
  split; [|split; [|split]].
  - unfold parse_yolo_output, parse_yolo_output_with.
    apply Nat.leb_le in Hch. rewrite Hch. reflexivity.
  - destruct row as [|a [|b [|c [|d [|e r]]]]]; simpl in Hrow; try lia; reflexivity.
  - reflexivity.
  - intros channels' Hch'. unfold parse_yolo_output, parse_yolo_output_with.
    destruct (Nat.leb_spec channels' 4); [lia|]. reflexivity.
Qed.

Lemma no_shape_check_witness :
  parse_yolo_output [] 4 (1#4) (45#100) (640, 640)%Z None = Err ValueError.
Proof.
  refine (proj1 (no_shape_check [] 4 [0; 0; 1; 1] [] (1#4) (45#100) (640, 640)%Z None _ _));
    simpl; lia.
Defined.

(** C4, as stated, fails: tensors that match neither encoding (four
    channels for the dense grid, rows of four values for the query set)
    make the decoders raise [ValueError] and [IndexError] from inside
    numpy/Python indexing instead of returning a [ShapeMismatch] result;
    the dense-grid decoder raises even on an empty tensor of that shape. *)
Lemma no_shape_check_counterexample :
  parse_detr_output [[0; 0; 1; 1]] (1#4) (640, 640)%Z None = Err IndexError /\
  parse_yolo_output [[0; 0; 1; 1]] 4 (1#4) (45#100) (640, 640)%Z None = Err ValueError /\
  parse_yolo_output [] 4 (1#4) (45#100) (640, 640)%Z None = Err ValueError.
Proof.
  repeat split; reflexivity.
Qed.

(* ------------------------------------------------------------------ *)
(** ** Insertion by key, shared by [insert_idx] and [insert_anchor] *)

Section InsertByKey.
Variable A : Type.
Variable key : A -> Q.
Variable ins : A -> list A -> list A.
Hypothesis ins_nil : forall a, ins a [] = [a].
Hypothesis ins_cons : forall a b l,
  ins a (b :: l) = if Qle_bool (key a) (key b) then a :: b :: l else b :: ins a l.

Lemma ins_perm (a : A) (l : list A) : Permutation (ins a l) (a :: l).
Proof.
  induction l as [|b l IH]; [rewrite ins_nil; reflexivity|].
  rewrite ins_cons. destruct (Qle_bool _ _); [reflexivity|].
  rewrite IH. apply perm_swap.
Qed.

Lemma ins_sorted (a : A) (l : list A) :
  ForallOrdPairs (fun x y => key x <= key y) l ->
  ForallOrdPairs (fun x y => key x <= key y) (ins a l).
Proof.
  induction l as [|b l IH]; intro Hs.
  - rewrite ins_nil. repeat constructor.
  - inversion Hs as [|? ? Hb Hl]; subst. rewrite ins_cons.
    destruct (Qle_bool (key a) (key b)) eqn:E.
    + apply Qle_bool_iff in E. constructor; [|exact Hs].
      constructor; [exact E|]. rewrite Forall_forall in *.
      intros c Hc. exact (Qle_trans _ _ _ E (Hb c Hc)).
    + constructor; [|exact (IH Hl)].
      apply Forall_forall. intros c Hc.
      apply (Permutation_in _ (ins_perm a l)) in Hc. destruct Hc as [<-|Hc].
      * apply Qlt_le_weak, Qnot_le_lt. intro H'. apply Qle_bool_iff in H'. congruence.
      * rewrite Forall_forall in Hb. exact (Hb c Hc).
Qed.
End InsertByKey.

Lemma ForallOrdPairs_app {A} (R : A -> A -> Prop) (l1 l2 : list A) :
  ForallOrdPairs R l1 -> ForallOrdPairs R l2 ->
  (forall x y, In x l1 -> In y l2 -> R x y) -> ForallOrdPairs R (l1 ++ l2).
Proof.
  induction 1 as [|a l1 Ha Hl1 IH]; intros H2 Hxy; simpl; [exact H2|].
  constructor.
  - apply Forall_app. split; [exact Ha|]. apply Forall_forall. intros y Hy.
    apply Hxy; [left; reflexivity | exact Hy].
  - apply IH; [exact H2|]. intros x y Hx Hy. apply Hxy; [right; exact Hx | exact Hy].
Qed.

Lemma ForallOrdPairs_rev {A} (R : A -> A -> Prop) (l : list A) :
  ForallOrdPairs R l -> ForallOrdPairs (fun x y => R y x) (rev l).
Proof.
  induction 1 as [|a l Ha Hl IH]; simpl; [constructor|].
  apply ForallOrdPairs_app; [exact IH | repeat constructor|].
  intros x y Hx [<-|[]]. apply in_rev in Hx. rewrite Forall_forall in Ha. exact (Ha x Hx).
Qed.

Lemma ForallOrdPairs_filter {A} (R : A -> A -> Prop) (f : A -> bool) (l : list A) :
  ForallOrdPairs R l -> ForallOrdPairs R (filter f l).
Proof.
  induction 1 as [|a l Ha Hl IH]; simpl; [constructor|].
  destruct (f a); [|exact IH]. constructor; [|exact IH].
  apply Forall_forall. intros x Hx. apply filter_In in Hx.
  rewrite Forall_forall in Ha. exact (Ha x (proj1 Hx)).
Qed.

Lemma argsort_perm (sc : list Q) : Permutation (argsort sc) (seq 0 (length sc)).
Proof.
  unfold argsort. induction (seq 0 (length sc)) as [|j l IH]; simpl; [reflexivity|].
  rewrite (ins_perm nat (fun i => nth i sc 0) (insert_idx sc)); [| reflexivity | reflexivity].
  apply perm_skip, IH.
Qed.

Lemma argsort_sorted (sc : list Q) :
  ForallOrdPairs (fun i j => nth i sc 0 <= nth j sc 0) (argsort sc).
Proof.
  unfold argsort. induction (seq 0 (length sc)) as [|j l IH]; simpl; [constructor|].
  apply (ins_sorted nat (fun i => nth i sc 0) (insert_idx sc)); auto.
Qed.

Lemma sort_anchors_sorted (l : list Anchor) :
  ForallOrdPairs (fun a b => aconf a <= aconf b) (sort_anchors l).
Proof.
  unfold sort_anchors. induction l as [|a l IH]; simpl; [constructor|].
  apply (ins_sorted Anchor aconf insert_anchor); auto.
Qed.

(* ------------------------------------------------------------------ *)
(** ** [parse_yolo_output] on anchors: sorting and suppression *)

Lemma map_nth_seq {A} (l : list A) (d : A) :
  map (fun i => nth i l d) (seq 0 (length l)) = l.
Proof.
  induction l as [|a l IH]; simpl; [reflexivity|].
  f_equal. rewrite <- seq_shift, map_map. exact IH.
Qed.

Section AnchorView.
Variable kept : list Anchor.

Lemma nth_confidences (i : nat) : nth i (map aconf kept) 0 = aconf ((anchor_at kept) i).
Proof. exact (map_nth aconf kept anchor0 i). Qed.

Lemma nth_boxes (i : nat) :
  (i < length kept)%nat -> nth i (map to_corner kept) box0 = to_corner ((anchor_at kept) i).
Proof.
  intro Hi. rewrite (nth_indep _ _ (to_corner anchor0)) by (rewrite length_map; exact Hi).
  apply map_nth.
Qed.

Lemma insert_idx_map (i : nat) (l : list nat) :
  map (anchor_at kept) (insert_idx (map aconf kept) i l) = insert_anchor ((anchor_at kept) i) (map (anchor_at kept) l).
Proof.
  induction l as [|j l IH]; simpl; [reflexivity|].
  rewrite !nth_confidences. destruct (Qle_bool _ _); simpl; [reflexivity|].
  rewrite IH. reflexivity.
Qed.

Lemma argsort_sort_anchors : map (anchor_at kept) (argsort (map aconf kept)) = sort_anchors kept.
Proof.
  unfold argsort, sort_anchors. rewrite length_map.
  transitivity (fold_right insert_anchor [] (map (anchor_at kept) (seq 0 (length kept)))).
  - induction (seq 0 (length kept)) as [|j l IH]; simpl; [reflexivity|].
    rewrite insert_idx_map, IH. reflexivity.
  - unfold anchor_at. rewrite map_nth_seq. reflexivity.
Qed.

Lemma nms_loop_greedy (thr : Q) (fuel : nat) (order : list nat) :
  Forall (fun i => i < length kept)%nat order ->
  map (anchor_at kept) (nms_loop (map to_corner kept) thr fuel order) = greedy thr fuel (map (anchor_at kept) order).
Proof.
  revert order. induction fuel as [|f IH]; intros order Hord; [reflexivity|].
  destruct order as [|i rest]; [reflexivity|].
  inversion Hord as [|? ? Hi Hrest]; subst. simpl. f_equal.
  rewrite IH.
  - f_equal. rewrite (nth_boxes i Hi). clear IH Hord.
    induction Hrest as [|j rest Hj _ IHr]; simpl; [reflexivity|].
    rewrite (nth_boxes j Hj).
    destruct (fle _ _); simpl; rewrite IHr; reflexivity.
  - apply Forall_forall. intros j Hj. apply filter_In in Hj.
    rewrite Forall_forall in Hrest. apply Hrest. tauto.
Qed.

(** The detections built from the indices kept by
    [nms_with sort_indices] are those of the anchor-level greedy
    suppression over the anchors sorted by decreasing confidence,
    whenever [sort_indices] lists the anchors in the order of
    [sort_anchors]. *)
Lemma yolo_detections_greedy_with (sort_indices : list Q -> list nat)
    (s : option (Q * Q)) (thr : Q)
    (Hperm : Permutation (sort_indices (map aconf kept)) (seq 0 (length kept)))
    (Hsort : map (anchor_at kept) (sort_indices (map aconf kept)) = sort_anchors kept) :
  map (yolo_detection kept s)
      (nms_with sort_indices (map to_corner kept) (map aconf kept) thr)
  = map (det_of s) (greedy thr (length kept) (rev (sort_anchors kept))).
Proof.
  assert (Hbound : forall i, In i (rev (sort_indices (map aconf kept))) -> (i < length kept)%nat).
  { intros i Hi. apply in_rev in Hi. apply (Permutation_in _ Hperm), in_seq in Hi. lia. }
  rewrite (map_ext_in _ (fun idx => det_of s ((anchor_at kept) idx))).
  - rewrite <- map_map. unfold nms_with. rewrite nms_loop_greedy.
    + rewrite map_rev, Hsort, length_rev, (Permutation_length Hperm), length_seq.
      reflexivity.
    + apply Forall_forall. exact Hbound.
  - intros idx Hidx. apply nms_loop_incl, Hbound in Hidx.
    unfold yolo_detection, det_of. rewrite map_map.
    rewrite (nth_indep _ _ (scale_box s (to_corner anchor0)))
      by (rewrite length_map; exact Hidx).
    rewrite (map_nth (fun a => scale_box s (to_corner a))), nth_confidences.
    reflexivity.
Qed.

Lemma yolo_detections_greedy (s : option (Q * Q)) (thr : Q) :
  map (yolo_detection kept s) (nms (map to_corner kept) (map aconf kept) thr)
  = map (det_of s) (greedy thr (length kept) (rev (sort_anchors kept))).
Proof.
  apply yolo_detections_greedy_with; [|apply argsort_sort_anchors].
  rewrite <- (length_map aconf kept). apply argsort_perm.
Qed.
End AnchorView.

(** [parse_yolo_output_with] restated on anchors, for a [sort_indices]
    that orders the kept anchors as [sort_anchors] does. *)
Lemma parse_yolo_output_with_greedy (sort_indices : list Q -> list nat)
    (output : list (list Q)) (channels : nat) (conf_threshold iou_threshold : Q)
    (input_shape : Z * Z) (original_shape : option (Z * Z))
    (Hsrt : forall anchors, map_res anchor_of_row output = Ok anchors ->
       let kept := filter (fun a => Qltb conf_threshold (aconf a)) anchors in
       Permutation (sort_indices (map aconf kept)) (seq 0 (length kept)) /\
       map (anchor_at kept) (sort_indices (map aconf kept)) = sort_anchors kept) :
  parse_yolo_output_with sort_indices output channels conf_threshold iou_threshold
    input_shape original_shape =
  if (channels <=? 4)%nat then Err ValueError else
  (anchors <- map_res anchor_of_row output ;;
   let kept := filter (fun a => Qltb conf_threshold (aconf a)) anchors in
   match kept with
   | [] => Ok []
   | _ => s <- scale_of input_shape original_shape ;;
          Ok (map (det_of s) (greedy iou_threshold (length kept) (rev (sort_anchors kept))))
   end).
Proof.
  unfold parse_yolo_output_with. destruct (channels <=? 4)%nat; [reflexivity|].
  destruct (map_res anchor_of_row output) as [anchors|e] eqn:Ha; cbn [bind_res];
    [|reflexivity].
  destruct (Hsrt anchors eq_refl) as [Hperm Hsort]. clear Hsrt Ha.
  revert Hperm Hsort.
  destruct (filter _ anchors) as [|k0 ks]; [reflexivity|]. intros Hperm Hsort.
  destruct (scale_of input_shape original_shape) as [s|e]; cbn [bind_res]; [|reflexivity].
  f_equal. exact (yolo_detections_greedy_with (k0 :: ks) sort_indices s iou_threshold
                    Hperm Hsort).
Qed.

(** [parse_yolo_output] restated on anchors. *)
Lemma parse_yolo_output_greedy (output : list (list Q)) (channels : nat)
    (conf_threshold iou_threshold : Q)
    (input_shape : Z * Z) (original_shape : option (Z * Z)) :
  parse_yolo_output output channels conf_threshold iou_threshold input_shape original_shape =
  if (channels <=? 4)%nat then Err ValueError else
  (anchors <- map_res anchor_of_row output ;;
   let kept := filter (fun a => Qltb conf_threshold (aconf a)) anchors in
   match kept with
   | [] => Ok []
   | _ => s <- scale_of input_shape original_shape ;;
          Ok (map (det_of s) (greedy iou_threshold (length kept) (rev (sort_anchors kept))))
   end).
Proof.
  unfold parse_yolo_output. apply parse_yolo_output_with_greedy.
  intros anchors _ kept. split; [|apply argsort_sort_anchors].
  rewrite <- (length_map aconf kept). apply argsort_perm.
Qed.

(* ------------------------------------------------------------------ *)
(** ** The monitor *)

(** A qualifying observation: a JSON object whose [detections] value has
    length [n] at time [now]. *)
Definition observation (obs : Q * nat) : Event :=
  Message (fst obs) (PObject (Some (JSized (snd obs)))).

(** The [time.sleep(1)] loop of [main] changes nothing: while no message
    arrives the globals keep their values and no toggle is issued. *)
Lemma run_wakes (st : MonitorState) (ts : list Q) (rest : list Event) :
  run st (map Wake ts ++ rest) = run st rest.
Proof.
  induction ts as [|t ts IH]; simpl; [reflexivity | exact IH].
Qed.

(** C2 (amended): there is no periodic time check. During a silence,
    whatever its length, the monitor stays as it is (in particular it
    stays enabled) and issues no toggle; the timeout is only evaluated
    when a non-qualifying message arrives, which then disables the
    stream with exactly one [toggle(false)] once more than
    [MOTION_TIMEOUT] seconds have passed since the last motion. *)
Theorem timeout_only_on_message (st : MonitorState) (ts : list Q) (now : Q) (n : nat)
    (Hen : webrtc_enabled st = true)
    (Hn : (n < MOTION_THRESHOLD)%nat)
    (Ht : MOTION_TIMEOUT < now - last_motion_time st) :
  run st (map Wake ts) = (st, []) /\
  on_message st now (PObject (Some (JSized n))) =
    (mkState (last_motion_time st) false, [Toggle false]).
Proof.
  split.
  - rewrite <- (app_nil_r (map Wake ts)), run_wakes. reflexivity.
  - unfold on_message, is_motion_detected.
    replace (Nat.leb MOTION_THRESHOLD n) with false
      by (symmetry; apply Nat.leb_gt; exact Hn).
    rewrite Hen. apply Qltb_lt in Ht. rewrite Ht. reflexivity.
Qed.

Lemma timeout_only_on_message_witness :
  run (mkState 0 true) (map Wake [1; 2; 3; 4; 5; 6]) = (mkState 0 true, []) /\
  on_message (mkState 0 true) 6 (PObject (Some (JSized 0))) =
    (mkState 0 false, [Toggle false]).
Proof.
  apply (timeout_only_on_message (mkState 0 true) [1; 2; 3; 4; 5; 6] 6 0).
  - reflexivity.
  - unfold MOTION_THRESHOLD. lia.
  - reflexivity.
Defined.

(** C2, as stated, fails (Scenario D): enabled since [t = 0] with
    [MOTION_TIMEOUT = 5] and no message afterwards, the main loop waking
    at [t = 6] leaves the stream enabled and issues no [toggle(false)]. *)
Lemma silence_counterexample :
  run (mkState 0 true) [Wake 6] = (mkState 0 true, []) /\
  webrtc_enabled (fst (run (mkState 0 true) [Wake 6])) = true.
Proof.
  split; reflexivity.
Qed.

(** C3 (amended): a JSON object without ["detections"] is handled as an
    observation with an empty detection list ([payload.get('detections', [])]):
    it is not an error, it is non-qualifying, and it disables the stream
    (one [toggle(false)]) when the stream is enabled and the timeout has
    expired; otherwise nothing changes. Payloads that do fail to parse
    (not JSON, not an object, or a [detections] value without [len]) are
    printed and leave the state unchanged with no toggle. *)
Theorem missing_detections_is_empty (st : MonitorState) (now : Q) :
  on_message st now (PObject None) = on_message st now (PObject (Some (JSized 0))) /\
  on_message st now (PObject None) =
    (if webrtc_enabled st && Qltb MOTION_TIMEOUT (now - last_motion_time st)
     then (mkState (last_motion_time st) false, [Toggle false])
     else (st, [])) /\
  on_message st now PUndecodable = (st, [LogError]) /\
  on_message st now PNonObject = (st, [LogError]) /\
  on_message st now (PObject (Some JUnsized)) = (st, [LogError]).
Proof.
  repeat split.
Qed.

(** C3, as stated, fails: with the stream enabled since [t = 0], a
    record without ["detections"] at [t = 6] changes the state and
    invokes [toggle(false)], without logging an error. *)
Lemma missing_detections_counterexample :
  on_message (mkState 0 true) 6 (PObject None) = (mkState 0 false, [Toggle false]).
Proof.
  reflexivity.
Qed.

Lemma on_message_qualifying_enabled (st : MonitorState) (now : Q) (n : nat) :
  webrtc_enabled st = true -> (MOTION_THRESHOLD <= n)%nat ->
  on_message st now (PObject (Some (JSized n))) = (mkState now true, []).
Proof.
  intros Hen Hn. unfold on_message, is_motion_detected.
  apply Nat.leb_le in Hn. rewrite Hn, Hen. reflexivity.
Qed.

Lemma on_message_qualifying_disabled (st : MonitorState) (now : Q) (n : nat) :
  webrtc_enabled st = false -> (MOTION_THRESHOLD <= n)%nat ->
  on_message st now (PObject (Some (JSized n))) = (mkState now true, [Toggle true]).
Proof.
  intros Hoff Hn. unfold on_message, is_motion_detected.
  apply Nat.leb_le in Hn. rewrite Hn, Hoff. reflexivity.
Qed.

Lemma run_qualifying_enabled (obs : list (Q * nat)) (st : MonitorState) :
  webrtc_enabled st = true -> obs <> [] ->
  Forall (fun o => (MOTION_THRESHOLD <= snd o)%nat) obs ->
  run st (map observation obs) = (mkState (fst (last obs (0, 0%nat))) true, []).
Proof.
  revert st. induction obs as [|o obs IH]; intros st Hen Hne Hq; [congruence|].
  inversion Hq as [|? ? Ho Hq']; subst. destruct o as [t n]. simpl in Ho.
  cbn [map observation fst snd run].
  rewrite (on_message_qualifying_enabled st t n Hen Ho).
  destruct obs as [|o' obs'].
  - reflexivity.
  - rewrite (IH (mkState t true) eq_refl ltac:(discriminate) Hq'). reflexivity.
Qed.

(** C7: from a disabled monitor, a non-empty run of qualifying
    observations enables the stream with exactly one [toggle(true)] and
    leaves [last_motion_time] at the last observation's time; while
    enabled, each qualifying observation only refreshes
    [last_motion_time] and issues no toggle. *)
Theorem qualifying_enable_once (st : MonitorState) (obs : list (Q * nat))
    (Hoff : webrtc_enabled st = false) (Hne : obs <> [])
    (Hq : Forall (fun o => (MOTION_THRESHOLD <= snd o)%nat) obs) :
  run st (map observation obs) = (mkState (fst (last obs (0, 0%nat))) true, [Toggle true]) /\
  (forall st' now n, webrtc_enabled st' = true -> (MOTION_THRESHOLD <= n)%nat ->
     on_message st' now (PObject (Some (JSized n))) = (mkState now true, [])).
Proof.
  split; [|exact on_message_qualifying_enabled].
  destruct obs as [|o obs]; [congruence|].
  inversion Hq as [|? ? Ho Hq']; subst. destruct o as [t n]. simpl in Ho.
  cbn [map observation fst snd run].
  rewrite (on_message_qualifying_disabled st t n Hoff Ho).
  destruct obs as [|o' obs'].
  - reflexivity.
  - rewrite (run_qualifying_enabled (o' :: obs') (mkState t true) eq_refl
               ltac:(discriminate) Hq').
    reflexivity.
Qed.

(** Scenario E: qualifying observations every second for ten seconds. *)
Lemma qualifying_enable_once_witness :
  run init_state
      (map observation [(0, 1%nat); (1, 1%nat); (2, 1%nat); (3, 1%nat); (4, 1%nat);
                        (5, 1%nat); (6, 1%nat); (7, 1%nat); (8, 1%nat); (9, 1%nat);
                        (10, 1%nat)])
  = (mkState 10 true, [Toggle true]).
Proof.
  refine (proj1 (qualifying_enable_once init_state
                   [(0, 1%nat); (1, 1%nat); (2, 1%nat); (3, 1%nat); (4, 1%nat);
                    (5, 1%nat); (6, 1%nat); (7, 1%nat); (8, 1%nat); (9, 1%nat);
                    (10, 1%nat)] eq_refl ltac:(discriminate) _)).
  repeat constructor.
Defined.

(** C9 (amended): on [KeyboardInterrupt], [main] prints, stops the MQTT
    loop and disconnects; it never calls [trigger_webrtc_stream], so an
    enabled stream stays enabled. *)
Theorem shutdown_no_disable (st : MonitorState) (rest : list Event) :
  run st (Interrupt :: rest) = (st, [LogExit; LoopStop; Disconnect]) /\
  toggles (snd (run st (Interrupt :: rest))) = [].
Proof.
  split; reflexivity.
Qed.

(** C9, as stated, fails: stopping an enabled monitor issues no
    [toggle(false)]. *)
Lemma shutdown_counterexample :
  webrtc_enabled (fst (run (mkState 0 true) [Interrupt])) = true /\
  ~ In (Toggle false) (snd (run (mkState 0 true) [Interrupt])).
Proof.
  split; [reflexivity|]. simpl. intuition discriminate.
Qed.

Lemma toggles_app (a b : list Action) : toggles (a ++ b) = toggles a ++ toggles b.
Proof.
  induction a as [|x a IH]; [reflexivity|]. destruct x; simpl; rewrite ?IH; reflexivity.
Qed.

(** One message either issues no toggle and keeps [webrtc_enabled], or
    issues one toggle to the opposite of [webrtc_enabled] and flips it. *)
Lemma on_message_toggle_shape (st : MonitorState) (now : Q) (p : Payload) :
  (toggles (snd (on_message st now p)) = [] /\
   webrtc_enabled (fst (on_message st now p)) = webrtc_enabled st) \/
  (toggles (snd (on_message st now p)) = [negb (webrtc_enabled st)] /\
   webrtc_enabled (fst (on_message st now p)) = negb (webrtc_enabled st)).
Proof.
  destruct st as [lt en].
  destruct p as [| |[[n|]|]]; simpl; try (left; split; reflexivity).
  all: destruct en; simpl;
    repeat match goal with |- context [if ?b then _ else _] => destruct b end;
    simpl; auto.
Qed.

Lemma run_alternating (evs : list Event) (st : MonitorState) :
  alternating_from (negb (webrtc_enabled st)) (toggles (snd (run st evs))).
Proof.
  revert st. induction evs as [|[now p|now|] evs IH]; intro st; simpl; auto.
  destruct (on_message_toggle_shape st now p) as [[Ht He]|[Ht He]];
    destruct (on_message st now p) as [st1 a1]; simpl in Ht, He;
    specialize (IH st1); destruct (run st1 evs) as [st2 a2]; simpl in *;
    rewrite toggles_app, Ht; simpl.
  - rewrite <- He. exact IH.
  - split; [reflexivity|]. rewrite <- He. exact IH.
Qed.

(** C10: the toggle calls of the monitor alternate: [toggle(true)] only
    when [webrtc_enabled] is false, [toggle(false)] only when it is true;
    from the initial state the first one, if any, enables. *)
Theorem toggles_alternate :
  (forall st evs, alternating_from (negb (webrtc_enabled st)) (toggles (snd (run st evs)))) /\
  (forall evs, alternating_from true (toggles (snd (run init_state evs)))).
Proof.
  split.
  - intros st evs. apply run_alternating.
  - intro evs. exact (run_alternating evs init_state).
Qed.

(* ================================================================== *)
(** * Further properties of the decoder and the monitor *)

(* ------------------------------------------------------------------ *)
(** ** [nms]: duplicates, order, coverage *)

Lemma nms_loop_nodup (boxes : list Box) (thr : Q) (fuel : nat) (order : list nat) :
  NoDup order -> NoDup (nms_loop boxes thr fuel order).
Proof.
  revert order. induction fuel as [|f IH]; intros order Hnd; [constructor|].
  destruct order as [|i rest]; simpl; [constructor|].
  inversion Hnd as [|? ? Hi Hrest]; subst. constructor.
  - intro H. apply nms_loop_incl, filter_In in H. tauto.
  - apply IH, NoDup_filter, Hrest.
Qed.

Lemma nms_loop_ordered (boxes : list Box) (thr : Q) (R : nat -> nat -> Prop)
    (fuel : nat) (order : list nat) :
  ForallOrdPairs R order -> ForallOrdPairs R (nms_loop boxes thr fuel order).
Proof.
  revert order. induction fuel as [|f IH]; intros order Hs; [constructor|].
  destruct order as [|i rest]; simpl; [constructor|].
  inversion Hs as [|? ? Hi Hrest]; subst. constructor.
  - apply Forall_forall. intros j Hj. apply nms_loop_incl, filter_In in Hj.
    rewrite Forall_forall in Hi. exact (Hi j (proj1 Hj)).
  - apply IH, ForallOrdPairs_filter, Hrest.
Qed.

Lemma nms_loop_covers (boxes : list Box) (thr : Q) (fuel : nat) (order : list nat) :
  (length order <= fuel)%nat ->
  forall j, In j order ->
  In j (nms_loop boxes thr fuel order) \/
  exists i, In i (nms_loop boxes thr fuel order) /\
            fle (iou (nth i boxes box0) (nth j boxes box0)) thr = false.
Proof.
  revert order. induction fuel as [|f IH]; intros order Hlen j Hj.
  - destruct order; [destruct Hj | simpl in Hlen; lia].
  - destruct order as [|i rest]; [destruct Hj|]. simpl.
    destruct Hj as [<-|Hj]; [left; left; reflexivity|].
    destruct (fle (iou (nth i boxes box0) (nth j boxes box0)) thr) eqn:E.
    + assert (Hin : In j (filter (fun j => fle (iou (nth i boxes box0) (nth j boxes box0)) thr)
                         rest)) by (apply filter_In; auto).
      assert (Hl : (length (filter (fun j => fle (iou (nth i boxes box0) (nth j boxes box0)) thr)
                         rest) <= f)%nat).
      { simpl in Hlen. pose proof (filter_length_le
          (fun j => fle (iou (nth i boxes box0) (nth j boxes box0)) thr) rest). lia. }
      destruct (IH _ Hl j Hin) as [H|[k [Hk Hf]]].
      * left; right; exact H.
      * right. exists k. split; [right; exact Hk | exact Hf].
    + right. exists i. split; [left; reflexivity | exact E].
Qed.

(** X1: [nms] never returns an index twice. *)
Theorem nms_nodup (boxes : list Box) (scores : list Q) (iou_threshold : Q) :
  NoDup (nms boxes scores iou_threshold).
Proof.
  unfold nms, nms_with. apply nms_loop_nodup, NoDup_rev.
  apply (Permutation_NoDup (Permutation_sym (argsort_perm scores))), seq_NoDup.
Qed.

(** X2: [nms] returns its indices by non-increasing score; it is empty
    exactly when [scores] is, and otherwise starts with an index of
    maximal score. *)
Theorem nms_by_descending_score (boxes : list Box) (scores : list Q) (iou_threshold : Q) :
  ForallOrdPairs (fun i j => nth j scores 0 <= nth i scores 0)
    (nms boxes scores iou_threshold) /\
  (scores = [] -> nms boxes scores iou_threshold = []) /\
  (scores <> [] ->
   exists i rest, nms boxes scores iou_threshold = i :: rest /\
     forall j, (j < length scores)%nat -> nth j scores 0 <= nth i scores 0).
Proof.
  assert (Hs := ForallOrdPairs_rev _ _ (argsort_sorted scores)).
  split; [unfold nms, nms_with; apply nms_loop_ordered, Hs|]. split.
  - intros ->. reflexivity.
  - intro Hne. unfold nms, nms_with in *.
    assert (Hlen : length (rev (argsort scores)) = length scores)
      by (rewrite length_rev; apply argsort_length).
    destruct (rev (argsort scores)) as [|i rest] eqn:E.
    + destruct scores; [congruence | discriminate].
    + simpl in Hlen. rewrite <- Hlen. simpl. eexists i, _. split; [reflexivity|].
      intros j Hj. assert (Hin : In j (i :: rest)).
      { rewrite <- E, <- in_rev. apply (Permutation_in _ (Permutation_sym (argsort_perm scores))).
        apply in_seq. lia. }
      destruct Hin as [<-|Hin]; [apply Qle_refl|].
      inversion Hs as [|? ? Hi _]; subst. rewrite Forall_forall in Hi. exact (Hi j Hin).
Qed.

(** X3: every input index that [nms] drops fails the IoU test against
    some index it keeps. *)
Theorem nms_dropped_suppressed (boxes : list Box) (scores : list Q) (iou_threshold : Q)
    (j : nat) (Hj : (j < length scores)%nat)
    (Hdrop : ~ In j (nms boxes scores iou_threshold)) :
  exists i, In i (nms boxes scores iou_threshold) /\
            fle (iou (nth i boxes box0) (nth j boxes box0)) iou_threshold = false.
Proof.
  unfold nms, nms_with in *.
  destruct (nms_loop_covers boxes iou_threshold _ (rev (argsort scores)) (le_n _) j)
    as [H|H]; [|contradiction|exact H].
  rewrite <- in_rev. apply (Permutation_in _ (Permutation_sym (argsort_perm scores))).
  apply in_seq. lia.
Qed.

Lemma nms_dropped_suppressed_witness :
  (1 < length ([0.9; 0.6])%Q)%nat /\
  ~ In 1%nat (nms [mkBox 0 0 10 10; mkBox 1 1 10 10] ([0.9; 0.6])%Q (45#100)) /\
  exists i, In i (nms [mkBox 0 0 10 10; mkBox 1 1 10 10] ([0.9; 0.6])%Q (45#100)) /\
    fle (iou (nth i [mkBox 0 0 10 10; mkBox 1 1 10 10] box0)
             (nth 1 [mkBox 0 0 10 10; mkBox 1 1 10 10] box0)) (45#100) = false.
Proof.
  assert (Hd : ~ In 1%nat (nms [mkBox 0 0 10 10; mkBox 1 1 10 10] ([0.9; 0.6])%Q (45#100))).
  { vm_compute. intros [H|[]]. discriminate H. }
  split; [simpl; lia|]. split; [exact Hd|].
  apply (nms_dropped_suppressed [mkBox 0 0 10 10; mkBox 1 1 10 10] ([0.9; 0.6])%Q (45#100) 1);
    [simpl; lia | exact Hd].
Defined.

(* ------------------------------------------------------------------ *)
(** ** IoU of well-formed boxes *)

Lemma max0_le (u W : Q) : u <= W -> 0 <= W -> Qmax 0 u <= W.
Proof. intros; apply Q.max_lub; assumption. Qed.

Lemma inter_le_area_l (a b : Box) :
  bx1 a <= bx2 a -> by1 a <= by2 a -> inter a b <= area a.
Proof.
  intros Hx Hy. unfold inter, area.
  assert (Hw : Qmax 0 (Qmin (bx2 a) (bx2 b) - Qmax (bx1 a) (bx1 b)) <= bx2 a - bx1 a).
  { apply max0_le; [|lra].
    pose proof (Q.le_min_l (bx2 a) (bx2 b)). pose proof (Q.le_max_l (bx1 a) (bx1 b)). lra. }
  assert (Hh : Qmax 0 (Qmin (by2 a) (by2 b) - Qmax (by1 a) (by1 b)) <= by2 a - by1 a).
  { apply max0_le; [|lra].
    pose proof (Q.le_min_l (by2 a) (by2 b)). pose proof (Q.le_max_l (by1 a) (by1 b)). lra. }
  apply Qmult_le_compat_nonneg; split; try assumption; apply Q.le_max_l.
Qed.

Lemma inter_le_area_r (a b : Box) :
  bx1 b <= bx2 b -> by1 b <= by2 b -> inter a b <= area b.
Proof.
  intros Hx Hy. rewrite inter_comm. apply inter_le_area_l; assumption.
Qed.

Lemma area_nonneg (a : Box) : bx1 a <= bx2 a -> by1 a <= by2 a -> 0 <= area a.
Proof. intros. unfold area. apply Qmult_le_0_compat; lra. Qed.

Lemma iou_bounds (a b : Box) :
    bx1 a <= bx2 a -> by1 a <= by2 a -> bx1 b <= bx2 b -> by1 b <= by2 b ->
  (union a b == 0 -> iou a b = NaN) /\
  (~ union a b == 0 -> exists q, iou a b = Fin q /\ 0 <= q /\ q <= 1).
Proof.
  intros Hax Hay Hbx Hby.
  pose proof (inter_nonneg a b) as Hn. pose proof (inter_le_area_l a b Hax Hay) as Hla.
  pose proof (inter_le_area_r a b Hbx Hby) as Hlb.
  assert (Hu : inter a b <= union a b) by (unfold union; lra).
  unfold iou, fdiv. split.
  - intro Hz. rewrite (proj2 (Qeq_bool_iff _ _) Hz).
    rewrite (proj2 (Qeq_bool_iff (inter a b) 0)) by lra. reflexivity.
  - intro Hz. destruct (Qeq_bool (union a b) 0) eqn:E.
    { apply Qeq_bool_iff in E. contradiction. }
    assert (Hp : 0 < union a b).
    { destruct (Qlt_le_dec 0 (union a b)) as [|Hle]; [assumption|].
      exfalso. apply Hz. lra. }
    exists (inter a b / union a b). split; [reflexivity|]. split.
    + apply Qle_shift_div_l; [exact Hp|]. lra.
    + apply Qle_shift_div_r; [exact Hp|]. lra.
Qed.

(** X4: for boxes with [x1 <= x2] and [y1 <= y2], the IoU computed in
    [nms] is NaN exactly when the union is zero, and otherwise a finite
    value in [0, 1]. *)
Theorem iou_range (a b : Box)
    (Hax : bx1 a <= bx2 a) (Hay : by1 a <= by2 a)
    (Hbx : bx1 b <= bx2 b) (Hby : by1 b <= by2 b) :
  (union a b == 0 -> iou a b = NaN) /\
  (~ union a b == 0 -> exists q, iou a b = Fin q /\ 0 <= q /\ q <= 1).
Proof. apply iou_bounds; assumption. Qed.

Lemma iou_range_witness :
  (0 <= 10 /\ 0 <= 10 /\ 5 <= 15 /\ 5 <= 15) /\
  (union (mkBox 0 0 10 10) (mkBox 5 5 15 15) == 0 ->
     iou (mkBox 0 0 10 10) (mkBox 5 5 15 15) = NaN) /\
  (~ union (mkBox 0 0 10 10) (mkBox 5 5 15 15) == 0 ->
     exists q, iou (mkBox 0 0 10 10) (mkBox 5 5 15 15) = Fin q /\ 0 <= q /\ q <= 1).
Proof.
  split; [repeat split; discriminate|].
  apply (iou_range (mkBox 0 0 10 10) (mkBox 5 5 15 15)); simpl; discriminate.
Defined.

(* ------------------------------------------------------------------ *)
(** ** [nms] at extreme thresholds *)

Lemma nth_box_wf (P : Box -> Prop) (boxes : list Box) (i : nat) :
  P box0 -> Forall P boxes -> P (nth i boxes box0).
Proof.
  intros H0 Hall. destruct (Nat.lt_ge_cases i (length boxes)) as [Hl|Hl].
  - rewrite Forall_forall in Hall. apply Hall, nth_In, Hl.
  - rewrite nth_overflow by exact Hl. exact H0.
Qed.

Lemma fle_iou_negative (a b : Box) (thr : Q) :
  bx1 a <= bx2 a -> by1 a <= by2 a -> bx1 b <= bx2 b -> by1 b <= by2 b ->
  thr < 0 -> fle (iou a b) thr = false.
Proof.
  intros Hax Hay Hbx Hby Ht.
  destruct (iou_bounds a b Hax Hay Hbx Hby) as [HN HF].
  destruct (Qeq_dec (union a b) 0) as [Hz|Hz].
  - rewrite (HN Hz). reflexivity.
  - destruct (HF Hz) as [q [-> [Hq _]]]. simpl.
    destruct (Qle_bool q thr) eqn:E; [|reflexivity].
    apply Qle_bool_iff in E. lra.
Qed.

Lemma filter_all_true {A : Type} (f : A -> bool) (l : list A) :
  (forall x, In x l -> f x = true) -> filter f l = l.
Proof.
  induction l as [|x l IH]; intro H; [reflexivity|]. simpl.
  rewrite (H x (or_introl eq_refl)), IH; [reflexivity|]. intros y Hy. apply H. right. exact Hy.
Qed.

Lemma filter_all_false {A : Type} (f : A -> bool) (l : list A) :
  (forall x, In x l -> f x = false) -> filter f l = [].
Proof.
  induction l as [|x l IH]; intro H; [reflexivity|]. simpl.
  rewrite (H x (or_introl eq_refl)). apply IH. intros y Hy. apply H. right. exact Hy.
Qed.

Lemma nms_loop_keep_all (boxes : list Box) (thr : Q) (fuel : nat) (order : list nat) :
  (forall i j, In i order -> In j order ->
     fle (iou (nth i boxes box0) (nth j boxes box0)) thr = true) ->
  (length order <= fuel)%nat ->
  nms_loop boxes thr fuel order = order.
Proof.
  revert order. induction fuel as [|f IH]; intros order Hall Hlen.
  - destruct order; [reflexivity | simpl in Hlen; lia].
  - destruct order as [|i rest]; [reflexivity|]. simpl.
    rewrite filter_all_true.
    + rewrite IH; [reflexivity| |simpl in Hlen; lia].
      intros k j Hk Hj. apply Hall; right; assumption.
    + intros j Hj. apply Hall; [left; reflexivity | right; exact Hj].
Qed.

Lemma in_order_bound (scores : list Q) (i : nat) :
  In i (rev (argsort scores)) -> (i < length scores)%nat.
Proof.
  rewrite <- in_rev. intro H.
  apply (Permutation_in _ (argsort_perm scores)), in_seq in H. lia.
Qed.

(** X5: with a negative IoU threshold and boxes with [x1 <= x2] and
    [y1 <= y2], [nms] keeps exactly one box for a non-empty [scores]:
    no IoU, finite or NaN, is [<=] a negative threshold. *)
Theorem nms_negative_threshold_single (boxes : list Box) (scores : list Q)
    (iou_threshold : Q)
    (Ht : iou_threshold < 0)
    (Hwf : Forall (fun b => bx1 b <= bx2 b /\ by1 b <= by2 b) boxes)
    (Hne : scores <> []) :
  exists i, nms boxes scores iou_threshold = [i].
Proof.
  unfold nms, nms_with.
  assert (Hlen : length (rev (argsort scores)) = length scores)
    by (rewrite length_rev; apply argsort_length).
  destruct (rev (argsort scores)) as [|i rest] eqn:E.
  - destruct scores; [congruence | discriminate].
  - exists i. simpl.
    rewrite filter_all_false; [destruct (length rest); reflexivity|].
    intros j _.
    assert (Hw : forall k, bx1 (nth k boxes box0) <= bx2 (nth k boxes box0) /\
                           by1 (nth k boxes box0) <= by2 (nth k boxes box0)).
    { intro k. apply (nth_box_wf (fun b => bx1 b <= bx2 b /\ by1 b <= by2 b));
        [simpl; split; apply Qle_refl | exact Hwf]. }
    destruct (Hw i), (Hw j). apply fle_iou_negative; assumption.
Qed.

Lemma nms_negative_threshold_single_witness :
  exists i, nms [mkBox 0 0 10 10; mkBox 20 20 30 30] ([0.3; 0.8])%Q (-1) = [i].
Proof.
  apply nms_negative_threshold_single.
  - reflexivity.
  - repeat constructor; discriminate.
  - discriminate.
Defined.

(** X6: with an IoU threshold of at least [1] and boxes of positive
    width and height, [nms] suppresses nothing: it returns every index
    of [scores] (when [boxes] has a row for each of them). *)
Theorem nms_threshold_one_keeps_all (boxes : list Box) (scores : list Q)
    (iou_threshold : Q)
    (Ht : 1 <= iou_threshold)
    (Hpos : Forall (fun b => bx1 b < bx2 b /\ by1 b < by2 b) boxes)
    (Hlen : (length scores <= length boxes)%nat) :
  Permutation (nms boxes scores iou_threshold) (seq 0 (length scores)).
Proof.
  unfold nms, nms_with. rewrite nms_loop_keep_all.
  - eapply Permutation_trans; [apply Permutation_sym, Permutation_rev | apply argsort_perm].
  - intros i j Hi Hj.
    apply in_order_bound in Hi. apply in_order_bound in Hj.
    rewrite Forall_forall in Hpos.
    destruct (Hpos (nth i boxes box0)) as [Hix Hiy]; [apply nth_In; lia|].
    destruct (Hpos (nth j boxes box0)) as [Hjx Hjy]; [apply nth_In; lia|].
    set (a := nth i boxes box0) in *. set (b := nth j boxes box0) in *.
    destruct (iou_bounds a b) as [_ HF]; try lra.
    assert (Hp : 0 < area a) by (unfold area; apply Qmult_lt_0_compat; lra).
    assert (Hu : ~ union a b == 0).
    { pose proof (inter_le_area_r a b ltac:(lra) ltac:(lra)).
      pose proof (area_nonneg b ltac:(lra) ltac:(lra)). unfold union. lra. }
    destruct (HF Hu) as [q [-> [_ Hq]]]. simpl. apply Qle_bool_iff. lra.
  - rewrite length_rev, argsort_length. lia.
Qed.

Lemma nms_threshold_one_keeps_all_witness :
  Permutation (nms [mkBox 0 0 10 10; mkBox 0 0 10 10] ([0.5; 0.5])%Q 1) (seq 0 2).
Proof.
  apply (nms_threshold_one_keeps_all [mkBox 0 0 10 10; mkBox 0 0 10 10] ([0.5; 0.5])%Q 1).
  - apply Qle_refl.
  - repeat constructor.
  - simpl. lia.
Defined.

(* ------------------------------------------------------------------ *)
(** ** [parse_yolo_output]: argmax, thresholds, errors, box shape *)

Lemma argmax_from_spec (l : list Q) : forall pre bi b c m,
  (bi < length pre)%nat -> nth bi pre 0 = b ->
  (forall j, (j < length pre)%nat -> nth j pre 0 <= b) ->
  (forall j, (j < bi)%nat -> nth j pre 0 < b) ->
  argmax_from bi b (length pre) l = (c, m) ->
  (c < length (pre ++ l))%nat /\ nth c (pre ++ l) 0 = m /\
  (forall j, (j < length (pre ++ l))%nat -> nth j (pre ++ l) 0 <= m) /\
  (forall j, (j < c)%nat -> nth j (pre ++ l) 0 < m).
Proof.
  induction l as [|x l IH]; intros pre bi b c m H1 H2 H3 H4 H.
  - simpl in H. injection H as <- <-. rewrite app_nil_r. auto.
  - simpl in H.
    replace (pre ++ x :: l) with ((pre ++ [x]) ++ l) by (rewrite <- app_assoc; reflexivity).
    assert (Hl : S (length pre) = length (pre ++ [x])) by (rewrite length_app; simpl; lia).
    rewrite Hl in H.
    destruct (Qle_bool x b) eqn:E.
    + apply Qle_bool_iff in E. apply (IH (pre ++ [x]) bi b c m); try assumption.
      * rewrite length_app; simpl; lia.
      * rewrite app_nth1 by lia. exact H2.
      * intros j Hj. rewrite length_app in Hj; simpl in Hj.
        destruct (Nat.lt_ge_cases j (length pre)).
        -- rewrite app_nth1 by lia. auto.
        -- replace j with (length pre) by lia. rewrite nth_middle. exact E.
      * intros j Hj. rewrite app_nth1 by lia. auto.
    + assert (Hbx : b < x).
      { apply Qnot_le_lt. intro Hc. apply Qle_bool_iff in Hc. congruence. }
      apply (IH (pre ++ [x]) (length pre) x c m); try assumption.
      * rewrite length_app; simpl; lia.
      * apply nth_middle.
      * intros j Hj. rewrite length_app in Hj; simpl in Hj.
        destruct (Nat.lt_ge_cases j (length pre)).
        -- rewrite app_nth1 by lia. apply Qle_trans with b; [auto | apply Qlt_le_weak, Hbx].
        -- replace j with (length pre) by lia. rewrite nth_middle. apply Qle_refl.
      * intros j Hj. rewrite app_nth1 by lia. apply Qle_lt_trans with b; auto.
Qed.

Lemma anchor_of_row_spec (row : list Q) (a : Anchor) :
  anchor_of_row row = Ok a ->
  exists cx cy w h scores, row = cx :: cy :: w :: h :: scores /\
    acx a = cx /\ acy a = cy /\ aw a = w /\ ah a = h /\
    (acls a < length scores)%nat /\ nth (acls a) scores 0 = aconf a /\
    (forall j, (j < length scores)%nat -> nth j scores 0 <= aconf a) /\
    (forall j, (j < acls a)%nat -> nth j scores 0 < aconf a).
Proof.
  destruct row as [|cx [|cy [|w [|h [|s sc]]]]]; simpl; try discriminate.
  destruct (argmax_from 0 s 1 sc) as [c m] eqn:E. intro H. injection H as <-.
  exists cx, cy, w, h, (s :: sc). simpl. do 5 (split; [reflexivity|]).
  assert (Hsp := argmax_from_spec sc [s] 0 s c m ltac:(simpl; lia) eq_refl
    ltac:(intros j Hj; simpl in Hj; replace j with 0%nat by lia; apply Qle_refl)
    ltac:(intros j Hj; lia) E).
  simpl in Hsp. exact Hsp.
Qed.

Lemma anchor_of_row_ok (row : list Q) :
  (5 <= length row)%nat -> exists a, anchor_of_row row = Ok a.
Proof.
  intro H. destruct row as [|cx [|cy [|w [|h [|s sc]]]]]; simpl in H; try lia.
  simpl. destruct (argmax_from 0 s 1 sc) as [c m]. eexists; reflexivity.
Qed.

Lemma map_res_Forall2 {A B} (f : A -> Res B) (l : list A) (l' : list B) :
  map_res f l = Ok l' -> Forall2 (fun x y => f x = Ok y) l l'.
Proof.
  revert l'. induction l as [|x l IH]; intros l' H; simpl in H.
  - injection H as <-. constructor.
  - destruct (f x) as [y|e] eqn:Ef; simpl in H; [|discriminate].
    destruct (map_res f l) as [ys|e]; simpl in H; [|discriminate].
    injection H as <-. constructor; [exact Ef | apply IH; reflexivity].
Qed.

Lemma map_res_all_ok {A B} (f : A -> Res B) (l : list A) :
  (forall x, In x l -> exists y, f x = Ok y) -> exists l', map_res f l = Ok l'.
Proof.
  induction l as [|x l IH]; intro H; [exists []; reflexivity|].
  destruct (H x (or_introl eq_refl)) as [y Hy].
  destruct IH as [ys Hys]; [intros z Hz; apply H; right; exact Hz|].
  exists (y :: ys). simpl. rewrite Hy. simpl. rewrite Hys. reflexivity.
Qed.

Lemma Forall2_In_r {A B} (R : A -> B -> Prop) (l : list A) (l' : list B) (y : B) :
  Forall2 R l l' -> In y l' -> exists x, In x l /\ R x y.
Proof.
  induction 1 as [|x y' l l' Hxy _ IH]; [intros []|].
  intros [<-|Hy]; [exists x; split; [left|]; auto|].
  destruct (IH Hy) as [z [Hz Hr]]. exists z. split; [right|]; auto.
Qed.

Lemma Forall2_In_l {A B} (R : A -> B -> Prop) (l : list A) (l' : list B) (x : A) :
  Forall2 R l l' -> In x l -> exists y, In y l' /\ R x y.
Proof.
  induction 1 as [|x' y l l' Hxy _ IH]; [intros []|].
  intros [<-|Hx]; [exists y; split; [left|]; auto|].
  destruct (IH Hx) as [z [Hz Hr]]. exists z. split; [right|]; auto.
Qed.

Lemma ForallOrdPairs_map {A B} (R : B -> B -> Prop) (f : A -> B) (l : list A) :
  ForallOrdPairs (fun x y => R (f x) (f y)) l -> ForallOrdPairs R (map f l).
Proof.
  induction 1 as [|x l Hx _ IH]; simpl; constructor; [|exact IH].
  apply Forall_map. exact Hx.
Qed.

Lemma ForallOrdPairs_impl {A} (R R' : A -> A -> Prop) (l : list A) :
  (forall x y, In x l -> In y l -> R x y -> R' x y) ->
  ForallOrdPairs R l -> ForallOrdPairs R' l.
Proof.
  intros Himp H. induction H as [|x l Hx _ IH]; constructor.
  - rewrite Forall_forall in *. intros y Hy. apply Himp; [left; reflexivity | right; exact Hy |].
    apply Hx, Hy.
  - apply IH. intros u v Hu Hv. apply Himp; right; assumption.
Qed.

Lemma nms_sorted (boxes : list Box) (scores : list Q) (thr : Q) :
  ForallOrdPairs (fun i j => nth j scores 0 <= nth i scores 0) (nms boxes scores thr).
Proof.
  unfold nms, nms_with. apply nms_loop_ordered, ForallOrdPairs_rev, argsort_sorted.
Qed.

Lemma parse_yolo_output_cases (output : list (list Q)) (channels : nat)
    (conf_threshold iou_threshold : Q)
    (input_shape : Z * Z) (original_shape : option (Z * Z)) (ds : list Detection) :
  parse_yolo_output output channels conf_threshold iou_threshold input_shape original_shape = Ok ds ->
  exists anchors kept, map_res anchor_of_row output = Ok anchors /\
    kept = filter (fun a => Qltb conf_threshold (aconf a)) anchors /\
    ((kept = [] /\ ds = []) \/
     (exists s, kept <> [] /\ scale_of input_shape original_shape = Ok s /\
        ds = map (yolo_detection kept s)
               (nms (map to_corner kept) (map aconf kept) iou_threshold))).
Proof.
  unfold parse_yolo_output, parse_yolo_output_with. intro H.
  destruct (channels <=? 4)%nat; [discriminate|].
  destruct (map_res anchor_of_row output) as [anchors|e]; simpl in H; [|discriminate].
  exists anchors, (filter (fun a => Qltb conf_threshold (aconf a)) anchors).
  split; [reflexivity|]. split; [reflexivity|].
  destruct (filter (fun a => Qltb conf_threshold (aconf a)) anchors) as [|k ks].
  - injection H as <-. left. split; reflexivity.
  - destruct (scale_of input_shape original_shape) as [s|e]; simpl in H; [|discriminate].
    injection H as <-. right. exists s. split; [discriminate|]. split; reflexivity.
Qed.

Lemma map_res_first_err {A B} (f : A -> Res B) (l : list A) (E : PyExc) :
  (forall x e, f x = Err e -> e = E) ->
  (exists x, In x l /\ exists e, f x = Err e) ->
  map_res f l = Err E.
Proof.
  intros Hall. induction l as [|x l IH]; intros [y [Hy [e He]]]; [destruct Hy|].
  simpl. destruct (f x) as [b|e'] eqn:Ef; simpl.
  - destruct Hy as [->|Hy]; [congruence|].
    rewrite IH; [reflexivity|]. exists y. split; [exact Hy | exists e; exact He].
  - rewrite (Hall x e' Ef). reflexivity.
Qed.

Lemma anchor_of_row_err (row : list Q) (e : PyExc) : anchor_of_row row = Err e -> e = ValueError.
Proof.
  destruct row as [|cx [|cy [|w [|h [|s sc]]]]]; simpl; try congruence.
  destruct (argmax_from 0 s 1 sc). discriminate.
Qed.

(** X8: when the tensor has at least five channels, every row is well
    formed and no class score is above
    [conf_threshold], [parse_yolo_output] returns [[]] through its
    early return, whatever the shapes: the scale division is never
    reached, even with a zero [input_shape]. *)
Theorem yolo_nothing_above_threshold (output : list (list Q)) (channels : nat)
    (conf_threshold iou_threshold : Q) (input_shape : Z * Z)
    (original_shape : option (Z * Z)) (Hch : (5 <= channels)%nat)
    (Hrows : Forall (fun row => (5 <= length row)%nat /\
                                Forall (fun s => s <= conf_threshold) (skipn 4 row)) output) :
  parse_yolo_output output channels conf_threshold iou_threshold input_shape original_shape
    = Ok [].
Proof.
  rewrite Forall_forall in Hrows.
  destruct (map_res_all_ok anchor_of_row output) as [anchors Ha].
  { intros row Hr. apply anchor_of_row_ok, (Hrows row Hr). }
  unfold parse_yolo_output, parse_yolo_output_with.
  destruct (Nat.leb_spec channels 4); [lia|]. rewrite Ha. simpl.
  rewrite filter_all_false; [reflexivity|].
  intros a Hin. destruct (Forall2_In_r _ _ _ a (map_res_Forall2 _ _ _ Ha) Hin)
    as [row [Hrow Hra]].
  destruct (anchor_of_row_spec row a Hra) as [cx [cy [w [h [sc [-> [_ [_ [_ [_ [Hc [Hn _]]]]]]]]]]]].
  destruct (Hrows _ Hrow) as [_ Hs]. simpl in Hs. rewrite Forall_forall in Hs.
  apply Qltb_false. rewrite <- Hn. apply Hs, nth_In, Hc.
Qed.

Lemma yolo_nothing_above_threshold_witness :
  parse_yolo_output [([5; 5; 2; 2; 0.1; 0.2])%Q; ([7; 7; 1; 1; 0.25; 0])%Q] 6
    (1#4) (45#100) (0%Z, 0%Z) (Some (480%Z, 640%Z)) = Ok [].
Proof.
  apply yolo_nothing_above_threshold; [lia|].
  repeat constructor; simpl; try lia; discriminate.
Defined.

(** X9: when the tensor has at least five channels, every row is well
    formed and some class score is above
    [conf_threshold], a failing scale computation (a zero
    [input_shape] entry with an [original_shape]) is the result of
    [parse_yolo_output]. *)
Theorem yolo_scale_error (output : list (list Q)) (channels : nat)
    (conf_threshold iou_threshold : Q) (input_shape : Z * Z)
    (original_shape : option (Z * Z)) (e : PyExc) (Hch : (5 <= channels)%nat)
    (Hrows : Forall (fun row => (5 <= length row)%nat) output)
    (Habove : Exists (fun row => Exists (fun s => conf_threshold < s) (skipn 4 row)) output)
    (Hs : scale_of input_shape original_shape = Err e) :
  parse_yolo_output output channels conf_threshold iou_threshold input_shape original_shape
    = Err e.
Proof.
  rewrite Forall_forall in Hrows.
  destruct (map_res_all_ok anchor_of_row output) as [anchors Ha].
  { intros row Hr. apply anchor_of_row_ok, (Hrows row Hr). }
  apply Exists_exists in Habove. destruct Habove as [row [Hrow Hex]].
  apply Exists_exists in Hex. destruct Hex as [s [Hsin Hlt]].
  destruct (Forall2_In_l _ _ _ row (map_res_Forall2 _ _ _ Ha) Hrow) as [a [Hain Hra]].
  destruct (anchor_of_row_spec row a Hra) as [cx [cy [w [h [sc [-> [_ [_ [_ [_ [_ [_ [Hmax _]]]]]]]]]]]]].
  simpl in Hsin. destruct (In_nth _ _ 0 Hsin) as [j [Hj Hjs]].
  assert (Hk : In a (filter (fun a => Qltb conf_threshold (aconf a)) anchors)).
  { apply filter_In. split; [exact Hain|]. apply Qltb_lt.
    apply Qlt_le_trans with s; [exact Hlt|]. rewrite <- Hjs. apply Hmax, Hj. }
  unfold parse_yolo_output, parse_yolo_output_with.
  destruct (Nat.leb_spec channels 4); [lia|]. rewrite Ha. simpl.
  destruct (filter (fun a => Qltb conf_threshold (aconf a)) anchors) as [|k ks];
    [destruct Hk|].
  rewrite Hs. reflexivity.
Qed.

Lemma yolo_scale_error_witness :
  parse_yolo_output [([5; 5; 2; 2; 0.1; 0.9])%Q] 6 (1#4) (45#100) (0%Z, 640%Z)
    (Some (480%Z, 640%Z)) = Err ZeroDivisionError.
Proof.
  apply yolo_scale_error.
  - lia.
  - repeat constructor; simpl; lia.
  - apply Exists_cons_hd. simpl. apply Exists_cons_tl, Exists_cons_hd. reflexivity.
  - reflexivity.
Defined.

(** X10: [parse_yolo_output] raises [ValueError] as soon as any row
    (not only the first) has no class score, whatever the other rows. *)
Theorem yolo_short_row_error (output : list (list Q)) (channels : nat)
    (conf_threshold iou_threshold : Q) (input_shape : Z * Z)
    (original_shape : option (Z * Z)) (row : list Q)
    (Hin : In row output) (Hrow : (length row < 5)%nat) :
  parse_yolo_output output channels conf_threshold iou_threshold input_shape original_shape
    = Err ValueError.
Proof.
  unfold parse_yolo_output, parse_yolo_output_with.
  destruct (channels <=? 4)%nat; [reflexivity|].
  rewrite (map_res_first_err anchor_of_row output ValueError anchor_of_row_err).
  - reflexivity.
  - exists row. split; [exact Hin|]. exists ValueError.
    destruct row as [|cx [|cy [|w [|h [|s sc]]]]]; simpl in Hrow; try lia; reflexivity.
Qed.

Lemma yolo_short_row_error_witness :
  parse_yolo_output [([5; 5; 2; 2; 0.9])%Q; ([1; 2; 3])%Q] 5 (1#4) (45#100) (640%Z, 640%Z) None
    = Err ValueError.
Proof.
  apply (yolo_short_row_error _ _ _ _ _ _ ([1; 2; 3])%Q).
  - right. left. reflexivity.
  - simpl. lia.
Defined.

(** X11: the detections of [parse_yolo_output] come in order of
    non-increasing confidence (the order of [nms]). *)
Theorem yolo_descending_confidence (output : list (list Q)) (channels : nat)
    (conf_threshold iou_threshold : Q) (input_shape : Z * Z)
    (original_shape : option (Z * Z)) (ds : list Detection)
    (H : parse_yolo_output output channels conf_threshold iou_threshold input_shape original_shape
         = Ok ds) :
  ForallOrdPairs (fun d e => confidence e <= confidence d) ds.
Proof.
  destruct (parse_yolo_output_cases _ _ _ _ _ _ _ H)
    as [anchors [kept [_ [_ [[_ ->]|[s [_ [_ ->]]]]]]]]; [constructor|].
  apply ForallOrdPairs_map. apply nms_sorted.
Qed.

Lemma yolo_descending_confidence_witness :
  parse_yolo_output [([5; 5; 2; 2; 0.3])%Q; ([50; 50; 2; 2; 0.9])%Q] 5 (1#4) (45#100)
    (640%Z, 640%Z) None =
    Ok [mkDet (98#2) (98#2) (102#2) (102#2) 0.9 0; mkDet (8#2) (8#2) (12#2) (12#2) 0.3 0] /\
  ForallOrdPairs (fun d e => confidence e <= confidence d)
    [mkDet (98#2) (98#2) (102#2) (102#2) 0.9 0; mkDet (8#2) (8#2) (12#2) (12#2) 0.3 0].
Proof.
  assert (H : parse_yolo_output [([5; 5; 2; 2; 0.3])%Q; ([50; 50; 2; 2; 0.9])%Q] 5 (1#4) (45#100)
    (640%Z, 640%Z) None = Ok [mkDet (98#2) (98#2) (102#2) (102#2) 0.9 0; mkDet (8#2) (8#2) (12#2) (12#2) 0.3 0])
    by (vm_compute; reflexivity).
  split; [exact H | exact (yolo_descending_confidence _ _ _ _ _ _ _ H)].
Defined.

Lemma scale_of_nonneg (input_shape : Z * Z) (original_shape : option (Z * Z))
    (s : option (Q * Q)) :
  match original_shape with
  | None => True
  | Some (oh, ow) => (0 <= oh)%Z /\ (0 <= ow)%Z /\
                     (0 <= fst input_shape)%Z /\ (0 <= snd input_shape)%Z
  end ->
  scale_of input_shape original_shape = Ok s ->
  match s with None => True | Some (sx, sy) => 0 <= sx /\ 0 <= sy end.
Proof.
  destruct original_shape as [[oh ow]|]; simpl; [|intros _ H; injection H as <-; exact I].
  destruct input_shape as [ih iw]. simpl. intros [Hoh [How [Hih Hiw]]].
  destruct (iw =? 0)%Z eqn:E1; [discriminate|]. destruct (ih =? 0)%Z eqn:E2; [discriminate|].
  intro H. injection H as <-. apply Z.eqb_neq in E1, E2.
  split; apply Qle_shift_div_l.
  - rewrite <- (Zlt_Qlt 0). lia.
  - rewrite Qmult_0_l. rewrite <- (Zle_Qle 0). exact How.
  - rewrite <- (Zlt_Qlt 0). lia.
  - rewrite Qmult_0_l. rewrite <- (Zle_Qle 0). exact Hoh.
Qed.

Lemma scaled_corner_oriented (s : option (Q * Q)) (a : Anchor) :
  0 <= aw a -> 0 <= ah a ->
  match s with None => True | Some (sx, sy) => 0 <= sx /\ 0 <= sy end ->
  bx1 (scale_box s (to_corner a)) <= bx2 (scale_box s (to_corner a)) /\
  by1 (scale_box s (to_corner a)) <= by2 (scale_box s (to_corner a)).
Proof.
  intros Hw Hh Hs. unfold to_corner.
  assert (Hx : acx a - aw a / 2 <= acx a + aw a / 2).
  { assert (0 <= aw a / 2) by (apply Qle_shift_div_l; [reflexivity | lra]). lra. }
  assert (Hy : acy a - ah a / 2 <= acy a + ah a / 2).
  { assert (0 <= ah a / 2) by (apply Qle_shift_div_l; [reflexivity | lra]). lra. }
  destruct s as [[sx sy]|]; simpl; [|split; assumption].
  destruct Hs as [Hsx Hsy]. split; apply Qmult_le_compat_r; assumption.
Qed.

Lemma yolo_kept_row (output : list (list Q)) (anchors : list Anchor) (conf_threshold : Q)
    (a : Anchor) :
  map_res anchor_of_row output = Ok anchors ->
  In a (filter (fun a => Qltb conf_threshold (aconf a)) anchors) ->
  exists row, In row output /\ anchor_of_row row = Ok a.
Proof.
  intros Ha Hin. apply filter_In in Hin.
  exact (Forall2_In_r _ _ _ a (map_res_Forall2 _ _ _ Ha) (proj1 Hin)).
Qed.

(** X12: when every row has a non-negative width and height and the
    shapes are non-negative, every detection of [parse_yolo_output] has
    [x1 <= x2] and [y1 <= y2]. *)
Theorem yolo_boxes_oriented (output : list (list Q)) (channels : nat)
    (conf_threshold iou_threshold : Q) (input_shape : Z * Z)
    (original_shape : option (Z * Z)) (ds : list Detection)
    (H : parse_yolo_output output channels conf_threshold iou_threshold input_shape original_shape
         = Ok ds)
    (Hwh : Forall (fun row => 0 <= nth 2 row 0 /\ 0 <= nth 3 row 0) output)
    (Hshape : match original_shape with
              | None => True
              | Some (oh, ow) => (0 <= oh)%Z /\ (0 <= ow)%Z /\
                                 (0 <= fst input_shape)%Z /\ (0 <= snd input_shape)%Z
              end) :
  Forall (fun d => x1 d <= x2 d /\ y1 d <= y2 d) ds.
Proof.
  destruct (parse_yolo_output_cases _ _ _ _ _ _ _ H)
    as [anchors [kept [Ha [Hk [[_ ->]|[s [_ [Hs ->]]]]]]]]; [constructor|].
  apply Forall_forall. intros d Hd. apply in_map_iff in Hd. destruct Hd as [idx [<- _]].
  unfold yolo_detection. cbn [x1 x2 y1 y2].
  apply (nth_box_wf (fun b => bx1 b <= bx2 b /\ by1 b <= by2 b));
    [split; apply Qle_refl|].
  rewrite map_map. apply Forall_map, Forall_forall. intros a Hain. subst kept.
  destruct (yolo_kept_row _ _ _ _ Ha Hain) as [row [Hrow Hra]].
  destruct (anchor_of_row_spec row a Hra) as [cx [cy [w [h [sc [-> [_ [_ [Hw [Hh _]]]]]]]]]].
  rewrite Forall_forall in Hwh. destruct (Hwh _ Hrow) as [Hw0 Hh0]. simpl in Hw0, Hh0.
  apply scaled_corner_oriented; [rewrite Hw; exact Hw0 | rewrite Hh; exact Hh0 |].
  exact (scale_of_nonneg _ _ _ Hshape Hs).
Qed.

Lemma yolo_boxes_oriented_witness :
  parse_yolo_output [([5; 5; 2; 2; 0.9])%Q] 5 (1#4) (45#100) (640%Z, 640%Z) (Some (480%Z, 640%Z))
    = Ok [mkDet (5120#1280) (3840#1280) (7680#1280) (5760#1280) 0.9 0] /\
  Forall (fun d => x1 d <= x2 d /\ y1 d <= y2 d) [mkDet (5120#1280) (3840#1280) (7680#1280) (5760#1280) 0.9 0].
Proof.
  assert (H : parse_yolo_output [([5; 5; 2; 2; 0.9])%Q] 5 (1#4) (45#100) (640%Z, 640%Z)
                (Some (480%Z, 640%Z)) = Ok [mkDet (5120#1280) (3840#1280) (7680#1280) (5760#1280) 0.9 0])
    by (vm_compute; reflexivity).
  split; [exact H|]. apply (yolo_boxes_oriented _ _ _ _ _ _ _ H).
  - repeat constructor; discriminate.
  - simpl. lia.
Defined.

(* ------------------------------------------------------------------ *)
(** ** IoU under the rescale of [parse_yolo_output] *)

Lemma max_scale (u v k : Q) : 0 < k -> Qmax (u * k) (v * k) == Qmax u v * k.
Proof.
  intro Hk. destruct (Qlt_le_dec u v) as [H|H].
  - rewrite (Q.max_r u v) by (apply Qlt_le_weak, H).
    apply Q.max_r. apply Qmult_le_compat_r; [apply Qlt_le_weak, H | apply Qlt_le_weak, Hk].
  - rewrite (Q.max_l u v) by exact H.
    apply Q.max_l. apply Qmult_le_compat_r; [exact H | apply Qlt_le_weak, Hk].
Qed.

Lemma min_scale (u v k : Q) : 0 < k -> Qmin (u * k) (v * k) == Qmin u v * k.
Proof.
  intro Hk. destruct (Qlt_le_dec u v) as [H|H].
  - rewrite (Q.min_l u v) by (apply Qlt_le_weak, H).
    apply Q.min_l. apply Qmult_le_compat_r; [apply Qlt_le_weak, H | apply Qlt_le_weak, Hk].
  - rewrite (Q.min_r u v) by exact H.
    apply Q.min_r. apply Qmult_le_compat_r; [exact H | apply Qlt_le_weak, Hk].
Qed.

Lemma max0_scale (u k : Q) : 0 < k -> Qmax 0 (u * k) == Qmax 0 u * k.
Proof.
  intro Hk. rewrite <- max_scale by exact Hk.
  apply Q.max_compat; [symmetry; apply Qmult_0_l | reflexivity].
Qed.

Lemma inter_scale (sx sy : Q) (a b : Box) : 0 < sx -> 0 < sy ->
  inter (scale_box (Some (sx, sy)) a) (scale_box (Some (sx, sy)) b) == inter a b * (sx * sy).
Proof.
  intros Hx Hy. unfold inter. simpl.
  rewrite !max_scale, !min_scale by assumption.
  setoid_replace (Qmin (bx2 a) (bx2 b) * sx - Qmax (bx1 a) (bx1 b) * sx)
    with ((Qmin (bx2 a) (bx2 b) - Qmax (bx1 a) (bx1 b)) * sx) by ring.
  setoid_replace (Qmin (by2 a) (by2 b) * sy - Qmax (by1 a) (by1 b) * sy)
    with ((Qmin (by2 a) (by2 b) - Qmax (by1 a) (by1 b)) * sy) by ring.
  rewrite !max0_scale by assumption. ring.
Qed.

Lemma area_scale (sx sy : Q) (a : Box) :
  area (scale_box (Some (sx, sy)) a) == area a * (sx * sy).
Proof. unfold area. simpl. ring. Qed.

Lemma union_scale (sx sy : Q) (a b : Box) : 0 < sx -> 0 < sy ->
  union (scale_box (Some (sx, sy)) a) (scale_box (Some (sx, sy)) b) == union a b * (sx * sy).
Proof.
  intros Hx Hy. unfold union. rewrite !area_scale, inter_scale by assumption. ring.
Qed.

Lemma flt_eq_trans (x y z : Flt) : flt_eq x y -> flt_eq y z -> flt_eq x z.
Proof.
  destruct x, y, z; simpl; intros H1 H2; try discriminate; try reflexivity.
  rewrite H1. exact H2.
Qed.

Lemma fdiv_scale (n d k : Q) : 0 < k -> flt_eq (fdiv (n * k) (d * k)) (fdiv n d).
Proof.
  intro Hk. unfold fdiv.
  assert (Ed : Qeq_bool (d * k) 0 = Qeq_bool d 0).
  { apply eq_true_iff_eq. rewrite !Qeq_bool_iff. split; intro H.
    - apply (Qmult_integral_l k d); [intro Hc; rewrite Hc in Hk; discriminate|].
      rewrite Qmult_comm. exact H.
    - rewrite H. apply Qmult_0_l. }
  assert (En : Qeq_bool (n * k) 0 = Qeq_bool n 0).
  { apply eq_true_iff_eq. rewrite !Qeq_bool_iff. split; intro H.
    - apply (Qmult_integral_l k n); [intro Hc; rewrite Hc in Hk; discriminate|].
      rewrite Qmult_comm. exact H.
    - rewrite H. apply Qmult_0_l. }
  assert (El : Qle_bool (n * k) 0 = Qle_bool n 0).
  { apply eq_true_iff_eq. rewrite !Qle_bool_iff. split; intro H.
    - apply (Qmult_le_r n 0 k Hk). rewrite Qmult_0_l. exact H.
    - rewrite <- (Qmult_0_l k). apply Qmult_le_compat_r; [exact H | apply Qlt_le_weak, Hk]. }
  rewrite Ed, En, El.
  destruct (Qeq_bool d 0) eqn:E0; [destruct (Qeq_bool n 0), (Qle_bool n 0); reflexivity|].
  simpl. assert (Hd : ~ d == 0) by (intro Hc; apply Qeq_bool_iff in Hc; congruence).
  assert (Hk0 : ~ k == 0) by (intro Hc; rewrite Hc in Hk; discriminate).
  field. split; assumption.
Qed.

Lemma iou_scale (sx sy : Q) (a b : Box) : 0 < sx -> 0 < sy ->
  flt_eq (iou (scale_box (Some (sx, sy)) a) (scale_box (Some (sx, sy)) b)) (iou a b).
Proof.
  intros Hx Hy. unfold iou.
  apply flt_eq_trans with (fdiv (inter a b * (sx * sy)) (union a b * (sx * sy))).
  - apply fdiv_compat; [apply inter_scale | apply union_scale]; assumption.
  - apply fdiv_scale. apply Qmult_lt_0_compat; assumption.
Qed.

Lemma det_box_mkDet (b : Box) (c : Q) (k : Z) :
  det_box (mkDet (bx1 b) (by1 b) (bx2 b) (by2 b) c k) = b.
Proof. destruct b; reflexivity. Qed.

Lemma scale_of_pos (input_shape : Z * Z) (original_shape : option (Z * Z))
    (s : option (Q * Q)) :
  match original_shape with
  | None => True
  | Some (oh, ow) => (0 < oh)%Z /\ (0 < ow)%Z /\
                     (0 < fst input_shape)%Z /\ (0 < snd input_shape)%Z
  end ->
  scale_of input_shape original_shape = Ok s ->
  match s with None => True | Some (sx, sy) => 0 < sx /\ 0 < sy end.
Proof.
  destruct original_shape as [[oh ow]|]; simpl; [|intros _ H; injection H as <-; exact I].
  destruct input_shape as [ih iw]. simpl. intros [Hoh [How [Hih Hiw]]].
  destruct (iw =? 0)%Z; [discriminate|]. destruct (ih =? 0)%Z; [discriminate|].
  intro H. injection H as <-.
  split; apply Qlt_shift_div_l; rewrite ?Qmult_0_l; rewrite <- (Zlt_Qlt 0); assumption.
Qed.

(** X13: when the shapes are positive (or no [original_shape] is
    given), the boxes returned by [parse_yolo_output] pass the [nms]
    IoU test pairwise: the rescale applied after [nms] does not change
    any IoU. *)
Theorem yolo_pairwise_iou (output : list (list Q)) (channels : nat)
    (conf_threshold iou_threshold : Q) (input_shape : Z * Z)
    (original_shape : option (Z * Z)) (ds : list Detection)
    (H : parse_yolo_output output channels conf_threshold iou_threshold input_shape original_shape
         = Ok ds)
    (Hshape : match original_shape with
              | None => True
              | Some (oh, ow) => (0 < oh)%Z /\ (0 < ow)%Z /\
                                 (0 < fst input_shape)%Z /\ (0 < snd input_shape)%Z
              end) :
  ForallOrdPairs (fun d e => fle (iou (det_box d) (det_box e)) iou_threshold = true) ds.
Proof.
  destruct (parse_yolo_output_cases _ _ _ _ _ _ _ H)
    as [anchors [kept [_ [_ [[_ ->]|[s [_ [Hs ->]]]]]]]]; [constructor|].
  pose proof (scale_of_pos _ _ _ Hshape Hs) as Hpos.
  apply ForallOrdPairs_map.
  apply (ForallOrdPairs_impl (keeps (map to_corner kept) iou_threshold)).
  - intros i j Hi Hj Hk. apply nms_In in Hi, Hj. rewrite length_map in Hi, Hj.
    unfold yolo_detection. rewrite !det_box_mkDet.
    assert (Hn : forall n, (n < length kept)%nat ->
                 nth n (map (scale_box s) (map to_corner kept)) box0 =
                 scale_box s (nth n (map to_corner kept) box0)).
    { intros n Hn. rewrite (nth_indep _ box0 (scale_box s box0))
        by (rewrite !length_map; exact Hn).
      apply map_nth. }
    rewrite !Hn by assumption. unfold keeps in Hk.
    destruct s as [[sx sy]|]; [|exact Hk].
    destruct Hpos as [Hx Hy]. rewrite (fle_flt_eq _ _ _ (iou_scale sx sy _ _ Hx Hy)). exact Hk.
  - unfold nms, nms_with. apply nms_loop_pairs.
Qed.

Lemma yolo_pairwise_iou_witness :
  exists ds,
    parse_yolo_output [([5; 5; 2; 2; 0.9])%Q; ([5; 5; 2; 2; 0.8])%Q; ([20; 20; 4; 4; 0.7])%Q]
      5 (1#4) (45#100) (640%Z, 640%Z) (Some (480%Z, 640%Z)) = Ok ds /\
    ForallOrdPairs (fun d e => fle (iou (det_box d) (det_box e)) (45#100) = true) ds.
Proof.
  eexists. split; [vm_compute; reflexivity|].
  apply (yolo_pairwise_iou [([5; 5; 2; 2; 0.9])%Q; ([5; 5; 2; 2; 0.8])%Q; ([20; 20; 4; 4; 0.7])%Q]
           5 (1#4) (45#100) (640%Z, 640%Z) (Some (480%Z, 640%Z))).
  - vm_compute. reflexivity.
  - simpl. lia.
Defined.

(* ------------------------------------------------------------------ *)
(** ** [parse_detr_output]: errors and results *)

(** X14: on rows of five values (no class id), [parse_detr_output]
    succeeds, with no detection, exactly when every row is below
    [conf_threshold]; the first kept row raises [IndexError] at
    [det[5]]. *)
Theorem detr_missing_class_id (rows : list (list Q)) (conf_threshold : Q)
    (input_shape : Z * Z) (original_shape : option (Z * Z))
    (Hw : Forall (fun r => length r = 5%nat) rows) :
  parse_detr_output rows conf_threshold input_shape original_shape =
    if forallb (fun r => Qltb (nth 4 r 0) conf_threshold) rows then Ok [] else Err IndexError.
Proof.
  unfold parse_detr_output. induction Hw as [|r rows Hr _ IH]; [reflexivity|].
  destruct r as [|a [|b [|c [|d [|e [|f r]]]]]]; simpl in Hr; try discriminate.
  simpl. destruct (Qltb e conf_threshold); simpl; [exact IH | reflexivity].
Qed.

Lemma detr_missing_class_id_witness :
  parse_detr_output [([0; 0; 1; 1; 0.1])%Q; ([0; 0; 1; 1; 0.5])%Q] (1#4) (640%Z, 640%Z) None
    = Err IndexError.
Proof.
  rewrite detr_missing_class_id; [reflexivity|].
  repeat constructor.
Defined.

(** X15: on rows of at least six values, a failing scale computation is
    raised only when some row reaches the append, i.e. is not below
    [conf_threshold]; otherwise the result is [[]]. *)
Theorem detr_scale_error (rows : list (list Q)) (conf_threshold : Q)
    (input_shape : Z * Z) (original_shape : option (Z * Z)) (e : PyExc)
    (Hw : Forall (fun r => (6 <= length r)%nat) rows)
    (Hs : scale_of input_shape original_shape = Err e) :
  parse_detr_output rows conf_threshold input_shape original_shape =
    if forallb (fun r => Qltb (nth 4 r 0) conf_threshold) rows then Ok [] else Err e.
Proof.
  unfold parse_detr_output. induction Hw as [|r rows Hr _ IH]; [reflexivity|].
  destruct r as [|a [|b [|c [|d [|e' [|f r]]]]]]; simpl in Hr; try lia.
  simpl. destruct (Qltb e' conf_threshold); simpl; [exact IH|]. rewrite Hs. reflexivity.
Qed.

Lemma detr_scale_error_witness :
  parse_detr_output [([0; 0; 1; 1; 0.1; 3])%Q; ([0; 0; 1; 1; 0.5; 2])%Q] (1#4)
    (0%Z, 0%Z) (Some (480%Z, 640%Z)) = Err ZeroDivisionError.
Proof.
  rewrite (detr_scale_error _ _ _ _ ZeroDivisionError); [reflexivity| |reflexivity].
  repeat constructor; simpl; lia.
Defined.

(** X16: every detection of [parse_detr_output] has a confidence not
    below [conf_threshold], and there are at most as many detections as
    rows. *)
Theorem detr_result_bounds (rows : list (list Q)) (conf_threshold : Q)
    (input_shape : Z * Z) (original_shape : option (Z * Z)) (ds : list Detection)
    (H : parse_detr_output rows conf_threshold input_shape original_shape = Ok ds) :
  Forall (fun d => conf_threshold <= confidence d) ds /\ (length ds <= length rows)%nat.
Proof.
  unfold parse_detr_output in H. revert ds H.
  induction rows as [|r rows IH]; intros ds H; cbn [parse_detr_rows] in H.
  - injection H as <-. split; [constructor | simpl; lia].
  - destruct (nth_error r 4) as [conf|]; [|discriminate].
    destruct (Qltb conf conf_threshold) eqn:Ec.
    + destruct (IH ds H) as [H1 H2]. split; [exact H1 | simpl; lia].
    + destruct r as [|a [|b [|c [|d [|e [|cid r']]]]]]; try discriminate.
      destruct (scale_of input_shape original_shape) as [s|err]; simpl in H; [|discriminate].
      destruct (parse_detr_rows conf_threshold input_shape original_shape rows) as [ds'|err]
        eqn:Er; simpl in H; [|discriminate].
      injection H as <-. destruct (IH ds' eq_refl) as [H1 H2].
      split; [constructor; [apply Qltb_false, Ec | exact H1] | simpl; lia].
Qed.

Lemma detr_result_bounds_witness :
  parse_detr_output [([0; 0; 1; 1; 0.25; 3])%Q; ([0; 0; 1; 1; 0.1; 2])%Q] (1#4)
    (640%Z, 640%Z) None = Ok [mkDet 0 0 1 1 0.25 3] /\
  Forall (fun d => (1#4) <= confidence d) [mkDet 0 0 1 1 0.25 3] /\
  (length [mkDet 0 0 1 1 0.25 3] <= length [([0; 0; 1; 1; 0.25; 3])%Q; ([0; 0; 1; 1; 0.1; 2])%Q])%nat.
Proof.
  assert (H : parse_detr_output [([0; 0; 1; 1; 0.25; 3])%Q; ([0; 0; 1; 1; 0.1; 2])%Q] (1#4)
    (640%Z, 640%Z) None = Ok [mkDet 0 0 1 1 0.25 3]) by (vm_compute; reflexivity).
  split; [exact H | exact (detr_result_bounds _ _ _ _ _ H)].
Defined.

(* ------------------------------------------------------------------ *)
(** ** The monitor over runs *)

Ltac case_ifs :=
  repeat match goal with |- context [if ?b then _ else _] => destruct b end.

Lemma on_message_last_time (st : MonitorState) (now : Q) (p : Payload) :
  last_motion_time (fst (on_message st now p)) =
    if qualifies p then now else last_motion_time st.
Proof.
  destruct p as [| |[[n|]|]]; unfold qualifies, payload_len, on_message; simpl;
    try reflexivity; case_ifs; reflexivity.
Qed.

Lemma run_message (st : MonitorState) (now : Q) (p : Payload) (rest : list Event) :
  run st (Message now p :: rest) =
    (fst (run (fst (on_message st now p)) rest),
     snd (on_message st now p) ++ snd (run (fst (on_message st now p)) rest)).
Proof.
  cbn [run]. destruct (on_message st now p) as [st1 a1]. cbn [fst snd].
  destruct (run st1 rest) as [st2 a2]. reflexivity.
Qed.

(** X17: after any sequence of events, [last_motion_time] is the time
    of the last message with at least [MOTION_THRESHOLD] detections
    (before a [KeyboardInterrupt]), or its initial value if there is
    none: no other message and no wake-up moves it. *)
Theorem run_last_motion_time (st : MonitorState) (evs : list Event) :
  last_motion_time (fst (run st evs)) = last_qualifying_time (last_motion_time st) evs.
Proof.
  revert st. induction evs as [|ev evs IH]; intro st; [reflexivity|].
  destruct ev as [now p|now|]; [| apply IH | reflexivity].
  rewrite run_message. cbn [fst last_qualifying_time]. rewrite IH, on_message_last_time.
  reflexivity.
Qed.

Lemma last_cons_default {A} (a : A) (l : list A) (d d' : A) :
  last (a :: l) d = last (a :: l) d'.
Proof.
  revert a. induction l as [|b l IH]; intro a; [reflexivity|].
  change (last (b :: l) d = last (b :: l) d'). apply IH.
Qed.

Lemma last_app_cons {A} (l1 l2 : list A) (a d : A) :
  last (l1 ++ a :: l2) d = last (a :: l2) d.
Proof.
  induction l1 as [|x l1 IH]; [reflexivity|].
  rewrite <- app_comm_cons. destruct l1 as [|y l1]; [reflexivity|].
  rewrite <- IH. reflexivity.
Qed.

Lemma last_app_default {A} (l1 l2 : list A) (d : A) :
  last (l1 ++ l2) d = last l2 (last l1 d).
Proof.
  destruct l2 as [|a l2]; [rewrite app_nil_r; reflexivity|].
  rewrite last_app_cons. apply last_cons_default.
Qed.

(** X18: after any sequence of events, the last [trigger_webrtc_stream]
    call carries the current value of [webrtc_enabled] (its initial
    value when no call was made): the stream was last commanded to the
    state the flag records. *)
Theorem run_last_toggle_matches_flag (st : MonitorState) (evs : list Event) :
  last (toggles (snd (run st evs))) (webrtc_enabled st) = webrtc_enabled (fst (run st evs)).
Proof.
  revert st. induction evs as [|ev evs IH]; intro st; [reflexivity|].
  destruct ev as [now p|now|]; [| apply IH | reflexivity].
  rewrite run_message. cbn [fst snd]. rewrite toggles_app, last_app_default.
  rewrite <- IH. f_equal.
  destruct (on_message_toggle_shape st now p) as [[-> ->]|[-> ->]]; reflexivity.
Qed.

(** X19: [on_message] enables the stream only from the disabled state on
    a message with at least [MOTION_THRESHOLD] detections, and disables
    it only from the enabled state on a readable message with fewer
    detections that arrives more than [MOTION_TIMEOUT] seconds after
    [last_motion_time]. *)
Theorem on_message_toggle_causes (st : MonitorState) (now : Q) (p : Payload) :
  (In (Toggle true) (snd (on_message st now p)) ->
     webrtc_enabled st = false /\ qualifies p = true) /\
  (In (Toggle false) (snd (on_message st now p)) ->
     webrtc_enabled st = true /\ qualifies p = false /\ payload_len p <> None /\
     MOTION_TIMEOUT < now - last_motion_time st).
Proof.
  cbv [on_message qualifies payload_len trigger_webrtc_stream].
  destruct (webrtc_enabled st) eqn:Ew;
    destruct (Qltb MOTION_TIMEOUT (now - last_motion_time st)) eqn:Et;
    destruct p as [| |[[n|]|]];
    try destruct (is_motion_detected n MOTION_THRESHOLD) eqn:Em;
    try destruct (is_motion_detected 0 MOTION_THRESHOLD) eqn:Em0;
    cbn [negb andb snd In];
    split; intro H;
    first [ exfalso; intuition discriminate
          | repeat split; first [reflexivity | discriminate | apply Qltb_lt; exact Et] ].
Qed.

(** X21: a disabled monitor that receives no message with at least
    [MOTION_THRESHOLD] detections keeps its state and never calls
    [trigger_webrtc_stream]. *)
Theorem disabled_quiet (st : MonitorState) (evs : list Event)
    (Hoff : webrtc_enabled st = false)
    (Hq : Forall (fun e => match e with Message _ p => qualifies p = false | _ => True end) evs) :
  fst (run st evs) = st /\ toggles (snd (run st evs)) = [].
Proof.
  induction Hq as [|ev evs Hev _ IH]; [split; reflexivity|].
  destruct ev as [now p|now|]; [| exact IH | split; reflexivity].
  assert (Hm : on_message st now p = (st, []) \/ on_message st now p = (st, [LogError])).
  { destruct p as [| |[[n|]|]]; unfold qualifies, payload_len in Hev; unfold on_message;
      simpl in *; try (right; reflexivity).
    - rewrite Hev, Hoff. left. reflexivity.
    - rewrite Hoff. left. reflexivity. }
  rewrite run_message. cbn [fst snd]. rewrite toggles_app.
  destruct Hm as [-> | ->]; cbn [fst snd]; destruct IH as [-> ->]; split; reflexivity.
Qed.

Lemma disabled_quiet_witness :
  fst (run init_state [Message 3 (PObject (Some (JSized 0))); Wake 4; Message 5 PUndecodable])
    = init_state /\
  toggles (snd (run init_state [Message 3 (PObject (Some (JSized 0))); Wake 4;
                                Message 5 PUndecodable])) = [].
Proof.
  apply disabled_quiet; [reflexivity|]. repeat constructor.
Defined.

Lemma on_message_toggle_causes_witness :
  webrtc_enabled (mkState 0 true) = true /\ qualifies (PObject (Some (JSized 0))) = false /\
  payload_len (PObject (Some (JSized 0))) <> None /\
  MOTION_TIMEOUT < 9 - last_motion_time (mkState 0 true).
Proof.
  apply (proj2 (on_message_toggle_causes (mkState 0 true) 9 (PObject (Some (JSized 0))))).
  left. reflexivity.
Defined.

Lemma nms_by_descending_score_witness :
  exists i rest, nms [mkBox 0 0 10 10; mkBox 20 20 30 30] ([0.3; 0.8])%Q (45#100) = i :: rest /\
    forall j, (j < length ([0.3; 0.8])%Q)%nat -> nth j ([0.3; 0.8])%Q 0 <= nth i ([0.3; 0.8])%Q 0.
Proof.
  apply (proj2 (proj2 (nms_by_descending_score [mkBox 0 0 10 10; mkBox 20 20 30 30]
                                                ([0.3; 0.8])%Q (45#100)))).
  discriminate.
Defined.

(* ------------------------------------------------------------------ *)
(** ** Raising the confidence threshold *)

Lemma insert_anchor_In (a x : Anchor) (l : list Anchor) :
  In x (insert_anchor a l) <-> x = a \/ In x l.
Proof.
  induction l as [|b l IH]; simpl; [intuition congruence|].
  destruct (Qle_bool _ _); simpl; [intuition congruence|]. rewrite IH. intuition congruence.
Qed.

Lemma sort_anchors_In (x : Anchor) (l : list Anchor) : In x (sort_anchors l) <-> In x l.
Proof.
  unfold sort_anchors. induction l as [|a l IH]; simpl; [tauto|].
  rewrite insert_anchor_In, IH. intuition congruence.
Qed.

Lemma sort_anchors_length (l : list Anchor) : length (sort_anchors l) = length l.
Proof.
  unfold sort_anchors. induction l as [|a l IH]; simpl; [reflexivity|].
  rewrite <- IH. generalize (fold_right insert_anchor [] l) as m. intro m.
  induction m as [|b m IHm]; simpl; [reflexivity|].
  destruct (Qle_bool _ _); simpl; [reflexivity|]. rewrite IHm. reflexivity.
Qed.

(** Inserting an anchor whose confidence is at most that of every anchor
    of [B] stops before [B]. *)
Lemma insert_anchor_app_low (a : Anchor) (A B : list Anchor) :
  Forall (fun b => aconf a <= aconf b) B ->
  insert_anchor a (A ++ B) = insert_anchor a A ++ B.
Proof.
  intro HB. induction A as [|x A IH]; simpl.
  - destruct HB as [|b B Hb _]; simpl; [reflexivity|].
    apply Qle_bool_iff in Hb. rewrite Hb. reflexivity.
  - destruct (Qle_bool _ _); simpl; [reflexivity|]. rewrite IH. reflexivity.
Qed.

(** Inserting an anchor whose confidence exceeds that of every anchor of
    [A] passes over [A]. *)
Lemma insert_anchor_app_high (a : Anchor) (A B : list Anchor) :
  Forall (fun x => aconf x < aconf a) A ->
  insert_anchor a (A ++ B) = A ++ insert_anchor a B.
Proof.
  induction 1 as [|x A Hx _ IH]; simpl; [reflexivity|].
  destruct (Qle_bool (aconf a) (aconf x)) eqn:E.
  - apply Qle_bool_iff in E. exfalso. exact (Qlt_not_le _ _ Hx E).
  - rewrite IH. reflexivity.
Qed.

(** Sorting puts every anchor at or below [t] before every anchor above
    it, each group in its own sorted order. *)
Lemma sort_anchors_split (t : Q) (l : list Anchor) :
  sort_anchors l =
  sort_anchors (filter (fun a => negb (Qltb t (aconf a))) l) ++
  sort_anchors (filter (fun a => Qltb t (aconf a)) l).
Proof.
  induction l as [|a l IH]; [reflexivity|].
  change (sort_anchors (a :: l)) with (insert_anchor a (sort_anchors l)).
  rewrite IH. simpl. destruct (Qltb t (aconf a)) eqn:E; simpl.
  - apply Qltb_lt in E. apply insert_anchor_app_high.
    apply Forall_forall. intros x Hx.
    apply sort_anchors_In, filter_In in Hx. destruct Hx as [_ Hx].
    apply negb_true_iff, Qltb_false in Hx. exact (Qle_lt_trans _ _ _ Hx E).
  - apply Qltb_false in E. apply insert_anchor_app_low.
    apply Forall_forall. intros x Hx.
    apply sort_anchors_In, filter_In in Hx. destruct Hx as [_ Hx].
    apply Qltb_lt in Hx. apply Qlt_le_weak. exact (Qle_lt_trans _ _ _ E Hx).
Qed.

(** Anchors appended after [H] never remove an anchor kept from [H]:
    suppression only acts on anchors that come later. *)
Lemma greedy_prefix (thr : Q) (n m : nat) (H Lo : list Anchor) :
  (length (H ++ Lo) <= n)%nat -> (length H <= m)%nat ->
  exists R, greedy thr n (H ++ Lo) = greedy thr m H ++ R.
Proof.
  revert m H Lo. induction n as [|n IH]; intros m H Lo Hn Hm.
  - destruct H as [|a H]; [|simpl in Hn; lia].
    destruct Lo as [|b Lo]; [|simpl in Hn; lia].
    exists []. destruct m; reflexivity.
  - destruct H as [|a H].
    + exists (greedy thr (S n) Lo). destruct m; reflexivity.
    + destruct m as [|m]; [simpl in Hm; lia|].
      simpl. rewrite filter_app.
      set (k := fun b => fle (iou (to_corner a) (to_corner b)) thr).
      destruct (IH m (filter k H) (filter k Lo)) as [R HR].
      * rewrite length_app. simpl in Hn. rewrite length_app in Hn.
        pose proof (filter_length_le k H). pose proof (filter_length_le k Lo). lia.
      * simpl in Hm. pose proof (filter_length_le k H). lia.
      * exists R. rewrite HR. reflexivity.
Qed.

Lemma filter_threshold_twice (t1 t2 : Q) (l : list Anchor) :
  t1 < t2 ->
  filter (fun a => Qltb t2 (aconf a)) (filter (fun a => Qltb t1 (aconf a)) l) =
  filter (fun a => Qltb t2 (aconf a)) l.
Proof.
  intro Ht. induction l as [|a l IH]; [reflexivity|]. simpl.
  destruct (Qltb t1 (aconf a)) eqn:E1; simpl.
  - destruct (Qltb t2 (aconf a)); rewrite IH; reflexivity.
  - destruct (Qltb t2 (aconf a)) eqn:E2; [|exact IH].
    apply Qltb_false in E1. apply Qltb_lt in E2. exfalso.
    apply (Qlt_not_le _ _ Ht). apply Qlt_le_weak. exact (Qlt_le_trans _ _ _ E2 E1).
Qed.

Lemma yolo_threshold_monotone (output : list (list Q)) (channels : nat)
    (t1 t2 iou_threshold : Q)
    (input_shape : Z * Z) (original_shape : option (Z * Z)) (d1 : list Detection)
    (Ht : t1 < t2)
    (H1 : parse_yolo_output output channels t1 iou_threshold input_shape original_shape
          = Ok d1) :
  exists d2,
    parse_yolo_output output channels t2 iou_threshold input_shape original_shape = Ok d2 /\
    incl d2 d1.
Proof.
  rewrite parse_yolo_output_greedy in *.
  destruct (channels <=? 4)%nat; [discriminate|].
  destruct (map_res anchor_of_row output) as [anchors|e]; cbn [bind_res] in *;
    [|discriminate].
  set (kept1 := filter (fun a => Qltb t1 (aconf a)) anchors) in H1.
  assert (Hk : filter (fun a => Qltb t2 (aconf a)) anchors =
               filter (fun a => Qltb t2 (aconf a)) kept1)
    by (symmetry; apply filter_threshold_twice; exact Ht).
  rewrite Hk. clear Hk.
  assert (Hsplit := sort_anchors_split t2 kept1).
  set (kept2 := filter (fun a => Qltb t2 (aconf a)) kept1) in *.
  set (low := filter (fun a => negb (Qltb t2 (aconf a))) kept1) in *.
  assert (Hlen : length kept1 = (length low + length kept2)%nat).
  { rewrite <- (sort_anchors_length kept1), Hsplit, length_app, !sort_anchors_length.
    reflexivity. }
  clearbody kept1 kept2 low.
  remember (greedy iou_threshold (length kept1) (rev (sort_anchors kept1))) as G1 eqn:EG1.
  destruct kept2 as [|k2 ks2] eqn:E2.
  - exists []. split; [reflexivity|]. intros x [].
  - destruct (scale_of input_shape original_shape) as [s|e] eqn:Es.
    2: { destruct kept1 as [|k1 ks1]; [simpl in Hlen; lia|]. discriminate H1. }
    destruct kept1 as [|k1 ks1]; [simpl in Hlen; lia|].
    cbn [bind_res] in H1. injection H1 as <-.
    exists (map (det_of s) (greedy iou_threshold (length kept2) (rev (sort_anchors kept2)))).
    split; [rewrite E2; reflexivity|].
    rewrite <- E2 in Hsplit. rewrite EG1, Hsplit, rev_app_distr.
    destruct (greedy_prefix iou_threshold (length (k1 :: ks1)) (length kept2)
                (rev (sort_anchors kept2)) (rev (sort_anchors low))) as [R HR].
    + rewrite length_app, !length_rev, !sort_anchors_length, E2. simpl length in *. lia.
    + rewrite length_rev, sort_anchors_length. lia.
    + rewrite HR, map_app. apply incl_appl, incl_refl.
Qed.

Lemma detr_threshold_monotone (rows : list (list Q)) (t1 t2 : Q)
    (input_shape : Z * Z) (original_shape : option (Z * Z)) (d1 : list Detection) :
  t1 < t2 ->
  parse_detr_rows t1 input_shape original_shape rows = Ok d1 ->
  exists d2, parse_detr_rows t2 input_shape original_shape rows = Ok d2 /\ incl d2 d1.
Proof.
  intro Ht. revert d1. induction rows as [|det rest IH]; intros d1 H1.
  - exists []. split; [reflexivity|]. intros x [].
  - cbn [parse_detr_rows] in H1 |- *.
    destruct (nth_error det 4) as [conf|]; [|discriminate].
    destruct (Qltb conf t1) eqn:E1.
    + assert (E2 : Qltb conf t2 = true).
      { apply Qltb_lt in E1. apply Qltb_lt. exact (Qlt_trans _ _ _ E1 Ht). }
      rewrite E2. exact (IH d1 H1).
    + destruct det as [|a [|b [|c [|d [|e [|f r]]]]]]; try discriminate.
      destruct (scale_of input_shape original_shape) as [sc|err]; cbn [bind_res] in *;
        [|discriminate].
      destruct (parse_detr_rows t1 input_shape original_shape rest) as [ds1|err];
        cbn [bind_res] in H1; [|discriminate].
      injection H1 as <-. destruct (IH ds1 eq_refl) as [d2 [Hd2 Hincl]].
      destruct (Qltb conf t2).
      * exists d2. split; [exact Hd2|]. apply incl_tl, Hincl.
      * rewrite Hd2. cbn [bind_res]. eexists. split; [reflexivity|].
        apply incl_cons; [left; reflexivity | apply incl_tl, Hincl].
Qed.

(** Two lists that are permutations of each other, both sorted by a key
    that tells their elements apart, are equal. *)
Lemma sorted_perm_unique {A} (key : A -> Q) (l1 l2 : list A) :
  Permutation l1 l2 ->
  ForallOrdPairs (fun x y => key x <= key y) l1 ->
  ForallOrdPairs (fun x y => key x <= key y) l2 ->
  (forall x y, In x l1 -> In y l1 -> key x == key y -> x = y) ->
  l1 = l2.
Proof.
  revert l2. induction l1 as [|a l1 IH]; intros l2 Hp Hs1 Hs2 Hinj.
  - symmetry. apply Permutation_nil, Hp.
  - destruct l2 as [|b l2]; [apply Permutation_sym, Permutation_nil_cons in Hp; contradiction|].
    assert (Hab : a = b).
    { assert (Ha : In a (b :: l2)) by (apply (Permutation_in _ Hp); left; reflexivity).
      assert (Hb : In b (a :: l1))
        by (apply (Permutation_in _ (Permutation_sym Hp)); left; reflexivity).
      destruct Ha as [->|Ha]; [reflexivity|].
      destruct Hb as [->|Hb]; [reflexivity|].
      inversion Hs1 as [|? ? Ha1 _]; subst. inversion Hs2 as [|? ? Hb2 _]; subst.
      rewrite Forall_forall in Ha1, Hb2.
      apply Hinj; [left; reflexivity | right; exact Hb |].
      apply Qle_antisym; [apply Ha1, Hb | apply Hb2, Ha]. }
    subst b. f_equal. apply IH.
    + exact (Permutation_cons_inv Hp).
    + inversion Hs1; assumption.
    + inversion Hs2; assumption.
    + intros x y Hx Hy. apply Hinj; right; assumption.
Qed.

Lemma sort_anchors_perm (l : list Anchor) : Permutation (sort_anchors l) l.
Proof.
  unfold sort_anchors. induction l as [|a l IH]; simpl; [reflexivity|].
  rewrite (ins_perm Anchor aconf insert_anchor); [| reflexivity | reflexivity].
  apply perm_skip, IH.
Qed.

(** An admissible sort lists the anchors in the order of [sort_anchors]
    when equal confidences only occur on equal anchors. *)
Lemma admissible_sort_anchors (sort_indices : list Q -> list nat)
    (Hadm : argsort_admissible sort_indices) (kept : list Anchor)
    (Hinj : forall a b, In a kept -> In b kept -> aconf a == aconf b -> a = b) :
  map (anchor_at kept) (sort_indices (map aconf kept)) = sort_anchors kept.
Proof.
  destruct (Hadm (map aconf kept)) as [Hp Hs]. rewrite length_map in Hp.
  assert (Hin : forall a, In a (map (anchor_at kept) (sort_indices (map aconf kept))) ->
                          In a kept).
  { intros a Ha. apply in_map_iff in Ha. destruct Ha as [i [<- Hi]].
    apply (Permutation_in _ Hp), in_seq in Hi. apply nth_In. lia. }
  apply (sorted_perm_unique aconf).
  - apply (Permutation_trans (l' := kept)); [|apply Permutation_sym, sort_anchors_perm].
    apply (Permutation_trans (l' := map (anchor_at kept) (seq 0 (length kept)))).
    + apply Permutation_map, Hp.
    + unfold anchor_at. rewrite map_nth_seq. reflexivity.
  - apply ForallOrdPairs_map.
    apply (ForallOrdPairs_impl (fun i j => nth i (map aconf kept) 0 <= nth j (map aconf kept) 0)).
    + intros i j _ _. rewrite !nth_confidences. exact (fun H => H).
    + exact Hs.
  - apply sort_anchors_sorted.
  - intros a b Ha Hb. apply Hinj; apply Hin; assumption.
Qed.

(** With an admissible sort, the decoder's output does not depend on
    the order of ties when the anchors above the threshold that share a
    confidence are equal. *)
Lemma parse_yolo_output_with_distinct (sort_indices : list Q -> list nat)
    (Hadm : argsort_admissible sort_indices)
    (output : list (list Q)) (channels : nat) (t iou_threshold : Q)
    (input_shape : Z * Z) (original_shape : option (Z * Z))
    (Hd : forall anchors, map_res anchor_of_row output = Ok anchors ->
          forall a b, In a anchors -> In b anchors -> t < aconf a -> aconf a == aconf b ->
          a = b) :
  parse_yolo_output_with sort_indices output channels t iou_threshold input_shape
    original_shape =
  parse_yolo_output output channels t iou_threshold input_shape original_shape.
Proof.
  rewrite parse_yolo_output_with_greedy, parse_yolo_output_greedy; [reflexivity|].
  intros anchors Ha kept. destruct (Hadm (map aconf kept)) as [Hp _].
  rewrite length_map in Hp. split; [exact Hp|].
  apply admissible_sort_anchors; [exact Hadm|].
  intros a b Ha' Hb' Heq. subst kept. apply filter_In in Ha', Hb'.
  apply (Hd anchors Ha a b); [tauto | tauto | apply Qltb_lt; tauto | exact Heq].
Qed.

Lemma argsort_is_admissible : argsort_admissible argsort.
Proof. intro sc. split; [apply argsort_perm | apply argsort_sorted]. Qed.

Lemma insert_idx_rev_perm (sc : list Q) (i : nat) (l : list nat) :
  Permutation (insert_idx_rev sc i l) (i :: l).
Proof.
  induction l as [|j l IH]; simpl; [reflexivity|].
  destruct (negb _); [reflexivity|]. rewrite IH. apply perm_swap.
Qed.

Lemma insert_idx_rev_sorted (sc : list Q) (i : nat) (l : list nat) :
  ForallOrdPairs (fun i j => nth i sc 0 <= nth j sc 0) l ->
  ForallOrdPairs (fun i j => nth i sc 0 <= nth j sc 0) (insert_idx_rev sc i l).
Proof.
  induction l as [|j l IH]; intro Hs; simpl; [repeat constructor|].
  inversion Hs as [|? ? Hj Hl]; subst.
  destruct (Qle_bool (nth j sc 0) (nth i sc 0)) eqn:E; simpl.
  - apply Qle_bool_iff in E. constructor; [|exact (IH Hl)].
    apply Forall_forall. intros k Hk.
    apply (Permutation_in _ (insert_idx_rev_perm sc i l)) in Hk. destruct Hk as [<-|Hk].
    + exact E.
    + rewrite Forall_forall in Hj. exact (Hj k Hk).
  - assert (Hlt : nth i sc 0 <= nth j sc 0).
    { apply Qlt_le_weak, Qnot_le_lt. intro H'. apply Qle_bool_iff in H'. congruence. }
    constructor; [|exact Hs]. constructor; [exact Hlt|].
    rewrite Forall_forall in *. intros k Hk. exact (Qle_trans _ _ _ Hlt (Hj k Hk)).
Qed.

Lemma argsort_by_size_admissible : argsort_admissible argsort_by_size.
Proof.
  intro sc. unfold argsort_by_size. destruct (Nat.eqb (length sc) 3).
  - unfold argsort_rev_ties. split.
    + induction (seq 0 (length sc)) as [|j l IH]; simpl; [reflexivity|].
      rewrite insert_idx_rev_perm. apply perm_skip, IH.
    + induction (seq 0 (length sc)) as [|j l IH]; simpl; [constructor|].
      apply insert_idx_rev_sorted, IH.
  - apply argsort_is_admissible.
Qed.



